(** * node_tree: a flat list of records indexed as a tree

    Shallow embedding of [node_tree.py] (classes [Node] and [TreeStore])
    and the properties of its construction and of its four queries.

    Python objects are modelled with an explicit object store: every
    [Node(item)] that [build_tree] allocates gets an address in [heap], the
    insertion-ordered dictionary [nodes_map] maps ids to addresses, and a
    node's [children] list holds addresses, so that the sharing between the
    dictionary, the children lists and [root_node] is the sharing of the
    program. *)

From Stdlib Require Import Ascii.
From stdpp Require Import base decidable option list relations gmap strings pretty.

Open Scope string_scope.
Open Scope list_scope.
Open Scope nat_scope.

(** ** Python values and records *)

(** The values a record holds: [Dict[str, str | int | None]]. *)
Inductive value : Type :=
  | VInt (z : Z)
  | VStr (s : string)
  | VNone.

Global Instance value_eq_dec : EqDecision value.
Proof. solve_decision. Defined.

(** A record is a Python [dict] with string keys; dictionaries are compared
    by content, which is the equality of [gmap]. *)
Abbreviation record := (gmap string value).

(** [d.get(k)]: the lookup that defaults to [None]. *)
Definition dict_get (d : record) (k : string) : value :=
  default VNone (d !! k).

(** [str(v)]. *)
Definition py_str (v : value) : string :=
  match v with
  | VInt z => pretty z
  | VStr s => s
  | VNone => "None"
  end.

(** [" " * n]. *)
Fixpoint spaces (n : nat) : string :=
  match n with
  | O => EmptyString
  | S n' => String " "%char (spaces n')
  end.

(** The sentinel that marks the root record. *)
Definition root_mark : value := VStr "root".

(** ** Exceptions and outcomes *)

Inductive exn : Type :=
  | KeyError (key : string)
  | AttributeError (attr : string).

(** What running a piece of the program gives: a value, a raised exception,
    or no answer within the fuel given to a loop or a recursion. *)
Inductive outcome (A : Type) : Type :=
  | Ret (a : A)
  | Raise (e : exn)
  | OutOfFuel.

Arguments Ret {A} a.
Arguments Raise {A} e.
Arguments OutOfFuel {A}.

Definition bind {A B : Type} (m : outcome A) (f : A → outcome B) : outcome B :=
  match m with
  | Ret a => f a
  | Raise e => Raise e
  | OutOfFuel => OutOfFuel
  end.

Notation "'let!' x ':=' m 'in' k" := (bind m (λ x, k))
  (at level 10, x name, m at level 100, k at level 200).

(** ** Insertion-ordered dictionaries keyed by values *)

Section odict.
Context {V : Type}.

(** [d[k] = v]: a key already present keeps its position and gets the new
    value; a new key goes to the end. *)
Fixpoint odict_set (k : value) (v : V) (d : list (value * V)) : list (value * V) :=
  match d with
  | [] => [(k, v)]
  | (k', v') :: d' =>
      if decide (k' = k) then (k', v) :: d' else (k', v') :: odict_set k v d'
  end.

(** [d.get(k)]. *)
Fixpoint odict_get (k : value) (d : list (value * V)) : option V :=
  match d with
  | [] => None
  | (k', v') :: d' => if decide (k' = k) then Some v' else odict_get k d'
  end.

(** [d.keys()] and [d.values()], in iteration order. *)
Definition odict_keys (d : list (value * V)) : list value := d.*1.
Definition odict_values (d : list (value * V)) : list V := d.*2.
End odict.

(** ** Nodes and the store *)

(** Addresses of node objects. *)
Abbreviation addr := nat (only parsing).

(** [class Node]: the record and the list of child nodes. *)
Record Node : Type := mkNode {
  item : record;
  children : list addr;
}.

Global Instance Node_inhabited : Inhabited Node := populate (mkNode ∅ []).

(** [class TreeStore], together with the objects it refers to. *)
Record TreeStore : Type := mkTreeStore {
  heap : list Node;
  nodes_map : list (value * addr);
  root_node : option addr;
}.

(** The node object at an address. *)
Definition node_at (s : TreeStore) (a : addr) : Node := heap s !!! a.

(** The state [__init__] sets up before it calls [build_tree]. *)
Definition empty_store : TreeStore := mkTreeStore [] [] None.

(** ** Construction *)

(** First loop of [build_tree]:
    [for item in items_: self.nodes_map[item['id']] = Node(item)]. *)
Fixpoint index_items (items_ : list record) (s : TreeStore) : outcome TreeStore :=
  match items_ with
  | [] => Ret s
  | item_ :: rest =>
      match item_ !! "id" with
      | None => Raise (KeyError "id")
      | Some id_ =>
          index_items rest
            (mkTreeStore (heap s ++ [mkNode item_ []])
                         (odict_set id_ (length (heap s)) (nodes_map s))
                         (root_node s))
      end
  end.

(** [node.children.append(child)] on the node object at [a]. *)
Definition append_child (child : addr) (n : Node) : Node :=
  mkNode (item n) (children n ++ [child]).

(** Body of the second loop of [build_tree], for the node at address [a]. *)
Definition link_node (s : TreeStore) (a : addr) : TreeStore :=
  let node := node_at s a in
  if decide (dict_get (item node) "parent" = root_mark) then
    mkTreeStore (heap s) (nodes_map s) (Some a)
  else
    match odict_get (dict_get (item node) "parent") (nodes_map s) with
    | Some parent_node =>
        mkTreeStore (alter (append_child a) parent_node (heap s)) (nodes_map s) (root_node s)
    | None => s
    end.

(** Second loop of [build_tree]: [for id_, node in self.nodes_map.items()]. *)
Definition link_nodes (entries : list (value * addr)) (s : TreeStore) : TreeStore :=
  foldl (λ s' e, link_node s' e.2) s entries.

(** [print_tree]; the lines printed are returned.  The recursion follows the
    children lists, so the model takes fuel for the depth of the recursion. *)
Fixpoint print_tree (fuel : nat) (s : TreeStore) (node : option addr) (indent : nat)
    : outcome (list string) :=
  match fuel with
  | O => OutOfFuel
  | S fuel' =>
      if decide (nodes_map s = []) then Ret []
      else
        let node := match node with None => root_node s | Some a => Some a end in
        match node with
        | None => Raise (AttributeError "item")
        | Some a =>
            foldl
              (λ acc child,
                 let! out := acc in
                 let! out' := print_tree fuel' s (Some child) (indent + 4) in
                 Ret (out ++ out'))
              (Ret [spaces indent +:+ py_str (dict_get (item (node_at s a)) "id")])
              (children (node_at s a))
        end
  end.

(** [build_tree]: both loops, then [self.print_tree()] and [print()]. *)
Definition build_tree (fuel : nat) (s : TreeStore) (items_ : list record)
    : outcome (TreeStore * list string) :=
  let! s1 := index_items items_ s in
  let s2 := link_nodes (nodes_map s1) s1 in
  let! out := print_tree fuel s2 None 0 in
  Ret (s2, out ++ [EmptyString]).

(** [TreeStore(items_)]. *)
Definition TreeStore_init (fuel : nat) (items_ : list record)
    : outcome (TreeStore * list string) :=
  build_tree fuel empty_store items_.

(** ** Queries *)

(** [get_all]. *)
Definition get_all (s : TreeStore) : list record :=
  (λ a, item (node_at s a)) <$> odict_values (nodes_map s).

(** [get_item]. *)
Definition get_item (s : TreeStore) (id_ : value) : record :=
  match odict_get id_ (nodes_map s) with
  | Some a => item (node_at s a)
  | None => ∅
  end.

(** [get_children]. *)
Definition get_children (s : TreeStore) (id_ : value) : list record :=
  match odict_get id_ (nodes_map s) with
  | Some a => (λ c, item (node_at s c)) <$> children (node_at s a)
  | None => []
  end.

(** The [while current_node:] loop of [get_all_parents]. *)
Fixpoint parents_loop (fuel : nat) (s : TreeStore) (current_node : option addr)
    (parents : list record) : outcome (list record) :=
  match current_node with
  | None => Ret parents
  | Some a =>
      match fuel with
      | O => OutOfFuel
      | S fuel' =>
          let parents' := parents ++ [item (node_at s a)] in
          match item (node_at s a) !! "parent" with
          | None => Raise (KeyError "parent")
          | Some parent_id =>
              parents_loop fuel' s (odict_get parent_id (nodes_map s)) parents'
          end
      end
  end.

(** [get_all_parents]. *)
Definition get_all_parents (fuel : nat) (s : TreeStore) (id_ : value)
    : outcome (list record) :=
  parents_loop fuel s (odict_get id_ (nodes_map s)) [].

(** ** The data set of the module's self-test *)

Definition rec2 (i : Z) (p : value) : record :=
  {[ "id" := VInt i; "parent" := p ]}.
Definition rec3 (i : Z) (p : value) (t : value) : record :=
  {[ "id" := VInt i; "parent" := p; "type" := t ]}.

Definition items : list record :=
  [ rec2 1 root_mark;
    rec3 2 (VInt 1) (VStr "test");
    rec3 3 (VInt 1) (VStr "test");
    rec3 4 (VInt 2) (VStr "test");
    rec3 5 (VInt 2) (VStr "test");
    rec3 6 (VInt 2) (VStr "test");
    rec3 7 (VInt 4) VNone;
    rec3 8 (VInt 4) VNone ].


(** ** Notions used to state the properties *)

(** The ids of the input records, in input order. *)
Definition ids (items_ : list record) : list value :=
  (λ r, dict_get r "id") <$> items_.

(** The distinct elements of a list, in the order of their first
    occurrence. *)
Fixpoint first_seen (l : list value) : list value :=
  match l with
  | [] => []
  | x :: l' => x :: filter (λ y, y ≠ x) (first_seen l')
  end.

(** The record the index shows for each key: the store with the addresses
    read through. *)
Definition view (s : TreeStore) : list (value * record) :=
  prod_map id (λ a, item (node_at s a)) <$> nodes_map s.

(** The index as a dictionary from ids to records, built as the first loop
    builds [nodes_map]. *)
Definition index_of (items_ : list record) : list (value * record) :=
  foldl (λ d r, odict_set (dict_get r "id") r d) [] items_.

(** The position of the last record of a list that bears the id [k]. *)
Fixpoint last_pos (k : value) (items_ : list record) : option nat :=
  match items_ with
  | [] => None
  | r :: rest =>
      match last_pos k rest with
      | Some i => Some (S i)
      | None => if decide (r !! "id" = Some k) then Some 0 else None
      end
  end.

(** What [build_tree] reads as the parent of the node at an address. *)
Definition parent_of (s : TreeStore) (c : addr) : value :=
  dict_get (item (node_at s c)) "parent".

(** The second loop makes [c] the root. *)
Definition is_root (s : TreeStore) (c : addr) : Prop :=
  parent_of s c = root_mark.

(** The second loop appends [c] to the children of the node at [a]. *)
Definition child_of (s : TreeStore) (a c : addr) : Prop :=
  parent_of s c ≠ root_mark ∧ odict_get (parent_of s c) (nodes_map s) = Some a.

Global Instance is_root_dec s c : Decision (is_root s c).
Proof. unfold is_root. apply _. Defined.
Global Instance child_of_dec s a c : Decision (child_of s a c).
Proof. unfold child_of. apply _. Defined.

(** The addresses in the index are allocated, the node at the address of a
    key holds a record with that id, and no key occurs twice. *)
Definition store_ok (s : TreeStore) : Prop :=
  NoDup (odict_keys (nodes_map s)) ∧
  ∀ k a, (k, a) ∈ nodes_map s →
    a < length (heap s) ∧ item (node_at s a) !! "id" = Some k.

(** Two stores with the same index and the same records, possibly with
    different children lists and roots. *)
Definition same_index (s s' : TreeStore) : Prop :=
  nodes_map s' = nodes_map s ∧
  length (heap s') = length (heap s) ∧
  ∀ a, item (node_at s' a) = item (node_at s a).

(** The store after the two loops of [build_tree] on [items_]. *)
Definition built (items_ : list record) (s : TreeStore) : Prop :=
  ∃ s1, index_items items_ empty_store = Ret s1 ∧ s = link_nodes (nodes_map s1) s1.

(** One step of the ancestor walk of [get_all_parents]: from the node at [a]
    to the node the index holds for the [parent] field of its record. *)
Definition parent_link (s : TreeStore) (a b : addr) : Prop :=
  ∃ p, item (node_at s a) !! "parent" = Some p ∧
       odict_get p (nodes_map s) = Some b.

(** The walk that starts at [id_] reaches the node at [a]. *)
Definition visits (s : TreeStore) (id_ : value) (a : addr) : Prop :=
  ∃ a0, odict_get id_ (nodes_map s) = Some a0 ∧ rtc (parent_link s) a0 a.

(** The walk that starts at [id_] reaches a node that is its own ancestor. *)
Definition cyclic_from (s : TreeStore) (id_ : value) : Prop :=
  ∃ a, visits s id_ a ∧ tc (parent_link s) a a.

(** The walk that starts at [id_] reaches a record without [parent] field. *)
Definition visits_parentless (s : TreeStore) (id_ : value) : Prop :=
  ∃ a, visits s id_ a ∧ item (node_at s a) !! "parent" = None.

(** Depth of a record in the input: the number of parent references
    between it and a record marked as root. *)
Inductive depth_in (items_ : list record) : record → nat → Prop :=
  | depth_root r :
      r ∈ items_ → r !! "parent" = Some root_mark → depth_in items_ r 0
  | depth_child r p pid d :
      r ∈ items_ → r !! "parent" = Some pid → pid ≠ root_mark →
      p ∈ items_ → p !! "id" = Some pid →
      depth_in items_ p d → depth_in items_ r (S d).

(** A well-formed rooted tree: every record has an id, the ids are distinct
    and none of them is the sentinel, exactly one record is marked as root,
    and every record is at some depth under a root-marked record. *)
Definition well_formed_tree (items_ : list record) : Prop :=
  Forall (λ r, is_Some (r !! "id")) items_ ∧
  NoDup (ids items_) ∧
  (root_mark ∉ ids items_) ∧
  (∃ root, root ∈ items_ ∧ root !! "parent" = Some root_mark ∧
           ∀ r, r ∈ items_ → r !! "parent" = Some root_mark → r = root) ∧
  ∀ r, r ∈ items_ → ∃ d, depth_in items_ r d.

(** ** Stores used as examples *)

(** The store of the self-test. *)
Definition ts : TreeStore :=
  match TreeStore_init 4 items with
  | Ret (s, _) => s
  | _ => empty_store
  end.

Definition ts_out : list string :=
  ["1"; "    2"; "        4"; "            7"; "            8";
   "        5"; "        6"; "    3"; EmptyString].

(** The first id occurs twice. *)
Definition dup_items : list record :=
  [ rec3 1 root_mark (VStr "old"); rec2 2 (VInt 1); rec3 1 root_mark (VStr "new") ].

Definition dup_store : TreeStore :=
  match TreeStore_init 2 dup_items with
  | Ret (s, _) => s
  | _ => empty_store
  end.

(** Two records that name each other as parent, next to a root. *)
Definition cyclic_items : list record :=
  [ rec2 1 root_mark; rec2 2 (VInt 3); rec2 3 (VInt 2) ].

Definition cyclic_store : TreeStore :=
  match TreeStore_init 1 cyclic_items with
  | Ret (s, _) => s
  | _ => empty_store
  end.

(** A record without [parent] field, next to a root. *)
Definition no_parent_items : list record :=
  [ rec2 1 root_mark; {[ "id" := VInt 2 ]} ].

Definition no_parent_store : TreeStore :=
  match TreeStore_init 1 no_parent_items with
  | Ret (s, _) => s
  | _ => empty_store
  end.

(** A record without [id] field. *)
Definition no_id_items : list record :=
  [ rec2 1 root_mark; {[ "parent" := VInt 1 ]} ].

(** No record is marked as root. *)
Definition rootless_items : list record := [ rec2 1 (VInt 2) ].

(** A record whose id is the sentinel itself. *)
Definition sentinel_items : list record :=
  [ {[ "id" := VStr "root"; "parent" := VStr "root" ]};
    {[ "id" := VStr "a"; "parent" := VStr "root" ]} ].

Definition sentinel_store : TreeStore :=
  match TreeStore_init 1 sentinel_items with
  | Ret (s, _) => s
  | _ => empty_store
  end.

(** A root and an orphan. *)
Definition orphan_items : list record :=
  [ rec2 1 root_mark; rec2 2 (VInt 99) ].

Definition orphan_store : TreeStore :=
  match TreeStore_init 1 orphan_items with
  | Ret (s, _) => s
  | _ => empty_store
  end.

(** The four queries and [print_tree] read the store only through the
    records the index shows; the following functions are the same
    computations on a dictionary from ids to records. *)

(** The records that name [k] as their parent and are not marked as root. *)
Definition children_in (d : list (value * record)) (k : value) : list record :=
  filter (λ r, dict_get r "parent" ≠ root_mark ∧ dict_get r "parent" = k)
         (odict_values d).

(** The root the second loop leaves: the last record marked as root. *)
Definition root_in (d : list (value * record)) : option record :=
  last (filter (λ r, dict_get r "parent" = root_mark) (odict_values d)).

Fixpoint parents_view (fuel : nat) (d : list (value * record))
    (current : option record) (parents : list record) : outcome (list record) :=
  match current with
  | None => Ret parents
  | Some r =>
      match fuel with
      | O => OutOfFuel
      | S fuel' =>
          match r !! "parent" with
          | None => Raise (KeyError "parent")
          | Some parent_id =>
              parents_view fuel' d (odict_get parent_id d) (parents ++ [r])
          end
      end
  end.

Fixpoint print_view (fuel : nat) (d : list (value * record)) (r : record)
    (indent : nat) : outcome (list string) :=
  match fuel with
  | O => OutOfFuel
  | S fuel' =>
      if decide (d = []) then Ret []
      else
        foldl
          (λ acc child,
             let! out := acc in
             let! out' := print_view fuel' d child (indent + 4) in
             Ret (out ++ out'))
          (Ret [spaces indent +:+ py_str (dict_get r "id")])
          (children_in d (dict_get r "id"))
  end.

Definition print_top (fuel : nat) (d : list (value * record)) : outcome (list string) :=
  match fuel with
  | O => OutOfFuel
  | S _ =>
      if decide (d = []) then Ret []
      else
        match root_in d with
        | None => Raise (AttributeError "item")
        | Some r => print_view fuel d r 0
        end
  end.

(** A record whose id is [None], and a record without [parent] field. *)
Definition none_id_items : list record :=
  [ {[ "id" := VNone; "parent" := root_mark ]}; {[ "id" := VInt 2 ]} ].

Definition none_id_store : TreeStore :=
  match TreeStore_init 2 none_id_items with
  | Ret (s, _) => s
  | _ => empty_store
  end.

(** Depth of a record of the index under a record marked as root, following
    the [parent] fields as the second loop resolves them. *)
Inductive depth_view (d : list (value * record)) : record → nat → Prop :=
  | depth_view_root r :
      r ∈ odict_values d → dict_get r "parent" = root_mark →
      depth_view d r 0
  | depth_view_child r p n :
      r ∈ odict_values d → dict_get r "parent" ≠ root_mark →
      odict_get (dict_get r "parent") d = Some p →
      depth_view d p n → depth_view d r (S n).

(** The keys of a dictionary of records are the ids of its records. *)
Definition keyed_by_id (d : list (value * record)) : Prop :=
  NoDup (odict_keys d) ∧ ∀ k r, (k, r) ∈ d → dict_get r "id" = k.

(** The record [x] is [k] levels below the record [top], going down through
    the lists that [get_children] returns. *)
Inductive below (s : TreeStore) (top : record) : record → nat → Prop :=
  | below_top : below s top top 0
  | below_child p x k :
      below s top p k → x ∈ get_children s (dict_get p "id") →
      below s top x (S k).

(** The same relation on a dictionary of records. *)
Inductive below_in (d : list (value * record)) (top : record)
    : record → nat → Prop :=
  | below_in_top : below_in d top top 0
  | below_in_child p x k :
      below_in d top p k → x ∈ children_in d (dict_get p "id") →
      below_in d top x (S k).

(** The line that [print_tree], started with indentation [indent], prints
    for a record [k] levels further down: [" " * indent + str(id)], with
    four more spaces per level. *)
Definition line_of (indent : nat) (n : record * nat) : string :=
  spaces (indent + 4 * n.2) +:+ py_str (dict_get n.1 "id").

(** ** Dictionaries: basic facts *)

Section odict_facts.
Context {V : Type}.
Implicit Types (d : list (value * V)) (k : value) (v : V).

Lemma odict_get_set_eq k v d : odict_get k (odict_set k v d) = Some v.
Proof.
  induction d as [|[k' v'] d IH]; simpl.
  - by rewrite decide_True.
  - destruct (decide (k' = k)) as [->|Hne]; simpl.
    + by rewrite decide_True.
    + by rewrite decide_False.
Qed.

Lemma odict_get_set_ne k k' v d :
  k ≠ k' → odict_get k' (odict_set k v d) = odict_get k' d.
Proof.
  intros Hne. induction d as [|[k0 v0] d IH]; simpl.
  - by rewrite decide_False.
  - destruct (decide (k0 = k)) as [->|Hne0]; simpl.
    + by rewrite !decide_False.
    + by rewrite IH.
Qed.

Lemma odict_get_None k d : odict_get k d = None ↔ k ∉ odict_keys d.
Proof.
  unfold odict_keys. induction d as [|[k' v'] d IH]; simpl.
  - split; [intros _; apply not_elem_of_nil | done].
  - rewrite not_elem_of_cons. destruct (decide (k' = k)) as [->|Hne].
    + split; [done | intros [? _]; done].
    + rewrite IH. split; [intros ?; by split | by intros [_ ?]].
Qed.

Lemma odict_get_Some_elem k v d : odict_get k d = Some v → (k, v) ∈ d.
Proof.
  induction d as [|[k' v'] d IH]; simpl; [done|].
  destruct (decide (k' = k)) as [->|Hne].
  - intros [= ->]. apply elem_of_cons; by left.
  - intros H. apply elem_of_cons; right; auto.
Qed.

Lemma odict_get_is_Some k d : is_Some (odict_get k d) ↔ k ∈ odict_keys d.
Proof.
  rewrite <-not_eq_None_Some, odict_get_None.
  split; [apply dec_stable | auto].
Qed.

Lemma odict_get_elem_NoDup k v d :
  NoDup (odict_keys d) → (k, v) ∈ d → odict_get k d = Some v.
Proof.
  unfold odict_keys. induction d as [|[k' v'] d IH]; simpl.
  - intros _ H. by apply elem_of_nil in H.
  - intros [Hnotin Hnd]%NoDup_cons [[= -> ->]|Hin]%elem_of_cons.
    + by rewrite decide_True.
    + rewrite decide_False; [auto|].
      intros ->. apply Hnotin. apply list_elem_of_fmap. by exists (k, v).
Qed.

Lemma odict_keys_set k v d :
  odict_keys (odict_set k v d) =
    if decide (k ∈ odict_keys d) then odict_keys d else odict_keys d ++ [k].
Proof.
  unfold odict_keys. induction d as [|[k' v'] d IH].
  - destruct (decide (k ∈ ([] : list (value * V)).*1)) as [Hin|_]; [|done].
    by apply elem_of_nil in Hin.
  - cbn [odict_set]. destruct (decide (k' = k)) as [->|Hne].
    + destruct (decide (k ∈ ((k, v') :: d).*1)) as [_|Hnotin]; [done|].
      exfalso. apply Hnotin. apply elem_of_cons; by left.
    + rewrite fmap_cons, IH. cbn [fst].
      destruct (decide (k ∈ d.*1)) as [Hin|Hnotin];
        destruct (decide (k ∈ ((k', v') :: d).*1)) as [Hin'|Hnotin']; try done.
      * exfalso. apply Hnotin'. apply elem_of_cons; by right.
      * apply elem_of_cons in Hin' as [?|?]; [simpl in *; congruence | done].
Qed.

Lemma odict_set_fresh k v d : k ∉ odict_keys d → odict_set k v d = d ++ [(k, v)].
Proof.
  unfold odict_keys. induction d as [|[k' v'] d IH]; simpl; [done|].
  intros [Hne Hnotin]%not_elem_of_cons.
  rewrite decide_False by congruence. by rewrite IH.
Qed.

Lemma odict_set_NoDup k v d :
  NoDup (odict_keys d) → NoDup (odict_keys (odict_set k v d)).
Proof.
  intros Hnd. rewrite odict_keys_set. case_decide; [done|].
  apply NoDup_app. split_and!; [done | | apply NoDup_singleton].
  intros x Hx ->%list_elem_of_singleton. done.
Qed.

Lemma odict_set_elem k v k' v' d :
  (k', v') ∈ odict_set k v d → (k' = k ∧ v' = v) ∨ (k', v') ∈ d.
Proof.
  induction d as [|[k0 v0] d IH]; cbn [odict_set].
  - intros [= -> ->]%list_elem_of_singleton. by left.
  - destruct (decide (k0 = k)) as [->|Hne].
    + intros [[= -> ->]|Hin]%elem_of_cons; [by left|].
      right. apply elem_of_cons; by right.
    + intros [[= -> ->]|Hin]%elem_of_cons.
      * right. apply elem_of_cons; by left.
      * destruct (IH Hin) as [?|?]; [by left|].
        right. apply elem_of_cons; by right.
Qed.
End odict_facts.

Lemma odict_set_fmap {V W : Type} (f : V → W) k v (d : list (value * V)) :
  prod_map id f <$> odict_set k v d = odict_set k (f v) (prod_map id f <$> d).
Proof.
  induction d as [|[k' v'] d IH]; csimpl; [done|].
  destruct (decide (k' = k)); csimpl; [done|]. by rewrite IH.
Qed.

Lemma odict_get_fmap {V W : Type} (f : V → W) k (d : list (value * V)) :
  odict_get k (prod_map id f <$> d) = f <$> odict_get k d.
Proof.
  induction d as [|[k' v'] d IH]; csimpl; [done|].
  destruct (decide (k' = k)); csimpl; [done|]. by rewrite IH.
Qed.

(** ** The first loop of [build_tree] *)

Lemma view_get s k :
  odict_get k (view s) = (λ a, item (node_at s a)) <$> odict_get k (nodes_map s).
Proof. apply odict_get_fmap. Qed.

Lemma view_keys s : odict_keys (view s) = odict_keys (nodes_map s).
Proof.
  unfold odict_keys, view. rewrite <-list_fmap_compose.
  apply list_fmap_ext. by intros ? [].
Qed.

Lemma view_values s : odict_values (view s) = get_all s.
Proof.
  unfold odict_values, view, get_all, odict_values. rewrite <-!list_fmap_compose.
  apply list_fmap_ext. by intros ? [].
Qed.

Lemma same_index_view s s' : same_index s s' → view s' = view s.
Proof.
  intros (Hm & _ & Hit). unfold view. rewrite Hm.
  apply list_fmap_ext. intros ? [k a] _. simpl. by rewrite Hit.
Qed.

Lemma same_index_ok s s' : same_index s s' → store_ok s → store_ok s'.
Proof.
  intros (Hm & Hlen & Hit) [Hnd Hent]. split; rewrite Hm; [done|].
  intros k a Hin. rewrite Hlen, Hit. auto.
Qed.

Lemma index_step_ok s r k :
  r !! "id" = Some k → store_ok s →
  store_ok (mkTreeStore (heap s ++ [mkNode r []])
              (odict_set k (length (heap s)) (nodes_map s)) (root_node s)).
Proof.
  intros Hid [Hnd Hent]. split; simpl.
  - by apply odict_set_NoDup.
  - intros k' a' [[-> ->]|Hin]%odict_set_elem; unfold node_at; simpl.
    + rewrite length_app. simpl. split; [lia|].
      by rewrite list_lookup_total_middle.
    + destruct (Hent _ _ Hin) as [Hlt Hk].
      rewrite length_app. split; [lia|].
      by rewrite lookup_total_app_l.
Qed.

Lemma index_step_view s r k :
  store_ok s →
  view (mkTreeStore (heap s ++ [mkNode r []])
          (odict_set k (length (heap s)) (nodes_map s)) (root_node s))
  = odict_set k r (view s).
Proof.
  intros [Hnd Hent]. unfold view, node_at. simpl.
  rewrite odict_set_fmap. rewrite list_lookup_total_middle by done. simpl.
  f_equal. apply list_fmap_ext. intros ? [k' a'] Hin%list_elem_of_lookup_2. simpl.
  destruct (Hent _ _ Hin) as [Hlt _]. unfold prod_map. simpl.
  by rewrite lookup_total_app_l.
Qed.

Lemma index_items_spec items_ : ∀ s s',
  index_items items_ s = Ret s' →
  Forall (λ r, is_Some (r !! "id")) items_ ∧
  heap s' = heap s ++ ((λ r, mkNode r []) <$> items_) ∧
  root_node s' = root_node s ∧
  (store_ok s → store_ok s') ∧
  (store_ok s →
   view s' = foldl (λ d r, odict_set (dict_get r "id") r d) (view s) items_) ∧
  (∀ k, odict_get k (nodes_map s') =
        match last_pos k items_ with
        | Some i => Some (length (heap s) + i)
        | None => odict_get k (nodes_map s)
        end).
Proof.
  induction items_ as [|r rest IH]; intros s s'; cbn [index_items].
  - intros [= <-]. split_and!; try done. by rewrite app_nil_r.
  - destruct (r !! "id") as [k|] eqn:Hid; [|done].
    intros (Hall & Hheap & Hroot & Hok & Hview & Hget)%IH.
    cbn [heap nodes_map root_node] in *.
    split_and!.
    + constructor; [by rewrite Hid | done].
    + by rewrite Hheap, <-app_assoc.
    + done.
    + intros Hs. apply Hok. by apply index_step_ok.
    + intros Hs. rewrite Hview by by apply index_step_ok.
      rewrite index_step_view by done.
      cbn [foldl]. replace (dict_get r "id") with k; [done|].
      unfold dict_get. by rewrite Hid.
    + intros k'. rewrite Hget. rewrite length_app. cbn [last_pos length].
      destruct (last_pos k' rest) as [i|]; [f_equal; lia|].
      destruct (decide (r !! "id" = Some k')) as [He|Hne].
      * assert (k = k') as -> by congruence.
        rewrite odict_get_set_eq. f_equal; lia.
      * rewrite odict_get_set_ne; [done|]. intros ->. done.
Qed.

(** ** The second loop of [build_tree] *)

Lemma same_index_refl s : same_index s s.
Proof. by split_and!. Qed.

Lemma same_index_trans s1 s2 s3 :
  same_index s1 s2 → same_index s2 s3 → same_index s1 s3.
Proof.
  intros (Hm & Hl & Hi) (Hm' & Hl' & Hi'). split_and!; [congruence..|].
  intros a. by rewrite Hi', Hi.
Qed.

Lemma same_index_parent_of s s' c : same_index s s' → parent_of s' c = parent_of s c.
Proof. intros (_ & _ & Hi). unfold parent_of. by rewrite Hi. Qed.

Lemma same_index_is_root s s' c : same_index s s' → is_root s' c ↔ is_root s c.
Proof. intros H. unfold is_root. by rewrite (same_index_parent_of s s'). Qed.

Lemma same_index_child_of s s' a c : same_index s s' → child_of s' a c ↔ child_of s a c.
Proof.
  intros H. unfold child_of. rewrite (same_index_parent_of s s') by done.
  destruct H as (-> & _). done.
Qed.

Lemma link_node_same s c : same_index s (link_node s c).
Proof.
  unfold link_node. case_decide; [by split_and!|].
  destruct (odict_get _ _) as [pa|]; [|by split_and!].
  split_and!; simpl; [done | apply length_alter |].
  intros a. unfold node_at. simpl. rewrite list_lookup_total_alter.
  case_decide as Hd; [|done]. by destruct Hd as [-> _].
Qed.

Lemma link_node_children s c a :
  a < length (heap s) →
  children (node_at (link_node s c) a) =
    children (node_at s a) ++ (if decide (child_of s a c) then [c] else []).
Proof.
  intros Hlt.
  destruct (decide (child_of s a c)) as [Hc|Hn];
    unfold child_of, parent_of in *; unfold link_node; cbv zeta.
  - destruct Hc as [Hr Hp]. rewrite decide_False by done. rewrite Hp.
    unfold node_at. simpl. by rewrite list_lookup_total_alter_eq.
  - case_decide; [by rewrite app_nil_r|].
    destruct (odict_get _ _) as [pa|] eqn:Hp; [|by rewrite app_nil_r].
    unfold node_at. simpl.
    rewrite list_lookup_total_alter_ne; [by rewrite app_nil_r|].
    intros ->. by apply Hn.
Qed.

Lemma link_node_root s c :
  root_node (link_node s c) = if decide (is_root s c) then Some c else root_node s.
Proof.
  destruct (decide (is_root s c)) as [Hr|Hr];
    unfold is_root, parent_of in Hr; unfold link_node; cbv zeta.
  - by rewrite decide_True.
  - rewrite decide_False by done. by destruct (odict_get _ _).
Qed.

Lemma link_nodes_same entries : ∀ s, same_index s (link_nodes entries s).
Proof.
  unfold link_nodes. induction entries as [|e es IH]; intros s; simpl.
  - apply same_index_refl.
  - eapply same_index_trans; [apply link_node_same | apply IH].
Qed.

Lemma link_nodes_children entries : ∀ s a,
  a < length (heap s) →
  children (node_at (link_nodes entries s) a) =
    children (node_at s a) ++ filter (child_of s a) entries.*2.
Proof.
  unfold link_nodes. induction entries as [|e es IH]; intros s a Hlt; csimpl.
  - by rewrite app_nil_r.
  - pose proof (link_node_same s e.2) as Hsame.
    rewrite IH by (destruct Hsame as (_ & -> & _); done).
    rewrite link_node_children by done.
    rewrite (list_filter_iff _ (child_of s a))
      by (intros c; by apply same_index_child_of).
    rewrite filter_cons. rewrite <-app_assoc. by case_decide.
Qed.

Lemma link_nodes_root entries : ∀ s,
  root_node (link_nodes entries s) =
    match last (filter (is_root s) entries.*2) with
    | Some c => Some c
    | None => root_node s
    end.
Proof.
  unfold link_nodes. induction entries as [|e es IH]; intros s; csimpl; [done|].
  pose proof (link_node_same s e.2) as Hsame.
  rewrite IH, link_node_root.
  rewrite (list_filter_iff _ (is_root s))
    by (intros c; by apply same_index_is_root).
  rewrite filter_cons. destruct (decide (is_root s e.2)) as [Hr|Hr]; [|done].
  rewrite last_cons. by destruct (last _).
Qed.

(** ** What the two loops build *)

Lemma filter_fmap_list {A B : Type} (f : A → B) (P : B → Prop)
    `{!∀ x, Decision (P x)} (l : list A) :
  filter P (f <$> l) = f <$> filter (λ x, P (f x)) l.
Proof.
  induction l as [|x l IH]; csimpl; [done|].
  rewrite !filter_cons. case_decide; csimpl; by rewrite IH.
Qed.

Lemma empty_store_ok : store_ok empty_store.
Proof.
  split; simpl; [apply NoDup_nil_2|]. intros k a H. by apply elem_of_nil in H.
Qed.

Lemma fresh_heap_lookup (items_ : list record) a :
  ((λ r, mkNode r []) <$> items_) !!! a = mkNode (default ∅ (items_ !! a)) [].
Proof.
  rewrite list_lookup_total_alt, list_lookup_fmap. by destruct (items_ !! a).
Qed.

Lemma filter_none {A : Type} (P : A → Prop) `{!∀ x, Decision (P x)} (l : list A) :
  (∀ x, x ∈ l → ¬ P x) → filter P l = [].
Proof.
  induction l as [|x l IH]; intros Hno; [done|].
  rewrite filter_cons_False by (apply Hno, elem_of_cons; by left).
  apply IH. intros y Hy. apply Hno, elem_of_cons. by right.
Qed.

Lemma filter_all {A : Type} (P : A → Prop) `{!∀ x, Decision (P x)} (l : list A) :
  (∀ x, x ∈ l → P x) → filter P l = l.
Proof.
  induction l as [|x l IH]; intros Hall; [done|].
  rewrite filter_cons_True by (apply Hall, elem_of_cons; by left).
  f_equal. apply IH. intros y Hy. apply Hall, elem_of_cons. by right.
Qed.

Lemma built_spec items_ s :
  built items_ s →
  Forall (λ r, is_Some (r !! "id")) items_ ∧
  store_ok s ∧
  view s = index_of items_ ∧
  item <$> heap s = items_ ∧
  (∀ k, odict_get k (nodes_map s) = last_pos k items_) ∧
  (∀ a, children (node_at s a) =
        filter (child_of s a) (odict_values (nodes_map s))) ∧
  root_node s = last (filter (is_root s) (odict_values (nodes_map s))).
Proof.
  intros (s1 & Hidx & ->).
  apply index_items_spec in Hidx as (Hall & Hheap & Hroot & Hok & Hview & Hget).
  specialize (Hok empty_store_ok). specialize (Hview empty_store_ok).
  simpl in Hheap, Hroot.
  pose proof (link_nodes_same (nodes_map s1) s1) as Hsame.
  assert (∀ a, children (node_at s1 a) = []) as Hnil.
  { intros a. unfold node_at. by rewrite Hheap, fresh_heap_lookup. }
  assert (store_ok (link_nodes (nodes_map s1) s1)) as Hok'
    by by apply (same_index_ok s1).
  split_and!.
  - done.
  - done.
  - by rewrite (same_index_view s1).
  - destruct Hsame as (_ & Hlen & Hit). apply list_eq. intros i.
    rewrite list_lookup_fmap.
    destruct (decide (i < length (heap (link_nodes (nodes_map s1) s1))))
      as [Hlt|Hge].
    + rewrite (list_lookup_lookup_total_lt _ _ Hlt). simpl.
      pose proof (Hit i) as Hi. unfold node_at in Hi.
      rewrite Hi, Hheap, fresh_heap_lookup. simpl.
      rewrite Hlen, Hheap, length_fmap in Hlt.
      destruct (lookup_lt_is_Some_2 items_ i Hlt) as [r Hr]. by rewrite Hr.
    + rewrite (lookup_ge_None_2 _ i) by lia.
      rewrite Hlen, Hheap, length_fmap in Hge.
      rewrite (lookup_ge_None_2 _ i) by lia. done.
  - intros k. destruct Hsame as (-> & _). rewrite Hget. simpl.
    by destruct (last_pos k items_).
  - intros a. destruct (decide (a < length (heap s1))) as [Hlt|Hge].
    + rewrite link_nodes_children by done. rewrite Hnil. simpl.
      pose proof Hsame as (Hm & _). rewrite Hm. unfold odict_values.
      apply list_filter_iff. intros c. symmetry.
      by apply same_index_child_of.
    + destruct Hsame as (Hm & Hlen & Hit).
      rewrite filter_none.
      * unfold node_at. rewrite list_lookup_total_alt.
        rewrite (lookup_ge_None_2 _ a) by lia. done.
      * intros c _ [_ Hc]. apply odict_get_Some_elem in Hc.
        destruct Hok' as [_ Hent]. apply Hent in Hc as [Hc _]. lia.
  - rewrite link_nodes_root, Hroot. pose proof Hsame as (Hm & _). rewrite Hm.
    unfold odict_values.
    rewrite (list_filter_iff (is_root (link_nodes (nodes_map s1) s1)) (is_root s1)).
    + by destruct (last _).
    + intros c. by apply same_index_is_root.
Qed.

Lemma init_built fuel items_ s out :
  TreeStore_init fuel items_ = Ret (s, out) → built items_ s.
Proof.
  unfold TreeStore_init, build_tree.
  destruct (index_items items_ empty_store) as [s1| |] eqn:Hidx; simpl; [|done..].
  destruct (print_tree _ _ _ _); simpl; [|done..].
  intros [= <- _]. by exists s1.
Qed.

(** ** The index as a dictionary of records *)

Lemma last_pos_None k items_ :
  last_pos k items_ = None ↔ ∀ r, r ∈ items_ → r !! "id" ≠ Some k.
Proof.
  induction items_ as [|r rest IH]; cbn [last_pos].
  - split; [|done]. intros _ r H. by apply elem_of_nil in H.
  - destruct (last_pos k rest) as [i|].
    + split; [done|]. intros H. exfalso.
      assert (Some i = None) as Hc; [|done].
      apply IH. intros r' Hr'. apply H, elem_of_cons. by right.
    + destruct (decide (r !! "id" = Some k)) as [He|Hne].
      * split; [done|]. intros H. exfalso. apply (H r); [|done].
        apply elem_of_cons. by left.
      * split; [|done]. intros _ r' [->|Hr']%elem_of_cons; [done|].
        by apply IH.
Qed.

Lemma last_pos_Some k items_ i :
  last_pos k items_ = Some i ↔
  ∃ r, items_ !! i = Some r ∧ r !! "id" = Some k ∧
       ∀ j r', i < j → items_ !! j = Some r' → r' !! "id" ≠ Some k.
Proof.
  revert i. induction items_ as [|r rest IH]; intros i; cbn [last_pos].
  - split; [done|]. by intros (r & Hr & _).
  - destruct (last_pos k rest) as [i'|] eqn:Hl.
    + split.
      * intros [= <-]. destruct (proj1 (IH i') eq_refl) as (r0 & Hr0 & Hid & Hlast).
        exists r0. split_and!; [done..|].
        intros [|j] r' Hlt Hj; [lia|]. apply (Hlast j); [lia | done].
      * intros (r0 & Hr0 & Hid & Hlast). destruct i as [|i].
        -- exfalso. destruct (proj1 (IH i') eq_refl) as (r1 & Hr1 & Hid1 & _).
           apply (Hlast (S i') r1); [lia | done | done].
        -- f_equal. f_equal. symmetry.
           assert (Some i' = Some i) as [= ->]; [|done].
           apply IH. exists r0. split_and!; [done..|].
           intros j r' Hlt Hj. apply (Hlast (S j)); [lia | done].
    + pose proof (proj1 (last_pos_None k rest) Hl) as Hnone.
      destruct (decide (r !! "id" = Some k)) as [He|Hne].
      * split.
        -- intros [= <-]. exists r. split_and!; [done..|].
           intros [|j] r' Hlt Hj; [lia|]. apply Hnone.
           by apply (list_elem_of_lookup_2 rest j).
        -- intros (r0 & Hr0 & Hid & _). destruct i as [|i]; [done|].
           exfalso. apply (Hnone r0); [|done].
           by apply (list_elem_of_lookup_2 rest i).
      * split; [done|]. intros (r0 & Hr0 & Hid & _). destruct i as [|i].
        -- simpl in Hr0. congruence.
        -- exfalso. apply (Hnone r0); [|done].
           by apply (list_elem_of_lookup_2 rest i).
Qed.

Lemma index_keys_gen items_ : ∀ d : list (value * record),
  odict_keys (foldl (λ d r, odict_set (dict_get r "id") r d) d items_) =
  odict_keys d ++ filter (λ k, k ∉ odict_keys d) (first_seen (ids items_)).
Proof.
  induction items_ as [|r rest IH]; intros d; csimpl.
  - by rewrite app_nil_r.
  - rewrite IH, odict_keys_set. rewrite filter_cons.
    rewrite list_filter_filter.
    destruct (decide (dict_get r "id" ∈ odict_keys d)) as [Hin|Hnotin].
    + rewrite decide_False by (intros H; by apply H).
      f_equal. apply list_filter_iff. intros k. split; [|by intros [? _]].
      intros Hk. split; [done|]. intros ->. done.
    + rewrite decide_True by done. rewrite <-app_assoc. simpl. do 2 f_equal.
      apply list_filter_iff. intros k. rewrite not_elem_of_app.
      rewrite list_elem_of_singleton. tauto.
Qed.

Lemma index_of_keys items_ : odict_keys (index_of items_) = first_seen (ids items_).
Proof.
  unfold index_of. rewrite index_keys_gen. simpl.
  apply filter_all. intros k _. apply not_elem_of_nil.
Qed.

Lemma first_seen_elem k l : k ∈ first_seen l ↔ k ∈ l.
Proof.
  induction l as [|x l IH]; simpl; [done|].
  rewrite !elem_of_cons, list_elem_of_filter, IH.
  destruct (decide (k = x)); tauto.
Qed.

Lemma first_seen_NoDup l : NoDup (first_seen l).
Proof.
  induction l as [|x l IH]; simpl; [apply NoDup_nil_2|].
  apply NoDup_cons. split.
  - rewrite list_elem_of_filter. by intros [? _].
  - by apply NoDup_filter.
Qed.

Lemma first_seen_id l : NoDup l → first_seen l = l.
Proof.
  induction l as [|x l IH]; simpl; [done|].
  intros [Hx Hl]%NoDup_cons. rewrite IH by done. f_equal.
  apply filter_all. intros y Hy ->. done.
Qed.

Lemma index_distinct_gen items_ : ∀ d : list (value * record),
  NoDup (odict_keys d ++ ids items_) →
  foldl (λ d r, odict_set (dict_get r "id") r d) d items_ =
  d ++ ((λ r, (dict_get r "id", r)) <$> items_).
Proof.
  induction items_ as [|r rest IH]; intros d Hnd; csimpl.
  - by rewrite app_nil_r.
  - unfold ids in Hnd. rewrite fmap_cons in Hnd.
    apply NoDup_app in Hnd as (Hd & Hdis & [Hr Hrest]%NoDup_cons).
    rewrite odict_set_fresh.
    + rewrite IH; [by rewrite <-app_assoc|].
      unfold odict_keys. rewrite fmap_app. simpl. rewrite <-app_assoc. simpl.
      apply NoDup_app. split_and!; [done| |by apply NoDup_cons].
      intros k Hk. apply Hdis. done.
    + intros Hin. apply (Hdis _ Hin). apply elem_of_cons. by left.
Qed.

Lemma index_of_distinct items_ :
  NoDup (ids items_) → index_of items_ = (λ r, (dict_get r "id", r)) <$> items_.
Proof. intros Hnd. unfold index_of. by rewrite index_distinct_gen. Qed.

Lemma index_of_values d :
  NoDup (odict_keys d) →
  (∀ k r, (k, r) ∈ d → dict_get r "id" = k) →
  index_of (odict_values d) = d.
Proof.
  intros Hnd Hid.
  assert (ids (odict_values d) = odict_keys d) as Hids.
  { unfold ids, odict_values, odict_keys. rewrite <-list_fmap_compose.
    apply list_fmap_ext. intros i [k r] Hin%list_elem_of_lookup_2. simpl.
    by apply Hid. }
  rewrite index_of_distinct by by rewrite Hids.
  unfold odict_values. rewrite <-list_fmap_compose.
  rewrite <-(list_fmap_id d) at 2.
  apply list_fmap_ext. intros i [k r] Hin%list_elem_of_lookup_2. simpl.
  by rewrite (Hid k r).
Qed.

(** ** The queries read through the view *)

Lemma foldl_ext_in {A B : Type} (f g : A → B → A) (l : list B) : ∀ x,
  (∀ a b, b ∈ l → f a b = g a b) → foldl f x l = foldl g x l.
Proof.
  induction l as [|b l IH]; intros x Hfg; simpl; [done|].
  rewrite Hfg by (apply elem_of_cons; by left).
  apply IH. intros a b' Hb'. apply Hfg, elem_of_cons. by right.
Qed.

Lemma built_item items_ s a r :
  built items_ s → items_ !! a = Some r → item (node_at s a) = r.
Proof.
  intros (_ & _ & _ & Hit & _)%built_spec Hr. unfold node_at.
  rewrite <-Hit, list_lookup_fmap in Hr.
  destruct (heap s !! a) as [n|] eqn:Hn; [|done].
  rewrite (list_lookup_total_correct _ _ _ Hn). by injection Hr.
Qed.

Lemma store_ok_addr_key s k k' a :
  store_ok s → (k, a) ∈ nodes_map s → (k', a) ∈ nodes_map s → k = k'.
Proof.
  intros [_ Hent] [_ H1]%Hent [_ H2]%Hent. congruence.
Qed.

Lemma store_ok_child_of s k a c :
  store_ok s → (k, a) ∈ nodes_map s →
  child_of s a c ↔ parent_of s c ≠ root_mark ∧ parent_of s c = k.
Proof.
  intros Hok Hin. unfold child_of. split; intros [Hr Hp]; (split; [done|]).
  - apply odict_get_Some_elem in Hp. by apply (store_ok_addr_key s _ _ a).
  - rewrite Hp. apply odict_get_elem_NoDup; [apply Hok | done].
Qed.

Lemma built_children items_ s k a :
  built items_ s → (k, a) ∈ nodes_map s →
  (λ c, item (node_at s c)) <$> children (node_at s a) = children_in (view s) k.
Proof.
  intros Hb Hin.
  pose proof (built_spec _ _ Hb) as (_ & Hok & _ & _ & _ & Hch & _).
  rewrite Hch. unfold children_in. rewrite view_values. unfold get_all.
  rewrite filter_fmap_list. f_equal.
  apply list_filter_iff. intros c. by apply store_ok_child_of.
Qed.

Lemma get_all_view s : get_all s = odict_values (view s).
Proof. by rewrite view_values. Qed.

Lemma get_item_view s k : get_item s k = default ∅ (odict_get k (view s)).
Proof. unfold get_item. rewrite view_get. by destruct (odict_get _ _). Qed.

Lemma get_children_view items_ s k :
  built items_ s →
  get_children s k =
    match odict_get k (view s) with
    | Some _ => children_in (view s) k
    | None => []
    end.
Proof.
  intros Hb. unfold get_children. rewrite view_get.
  destruct (odict_get k (nodes_map s)) as [a|] eqn:Ha; simpl; [|done].
  apply (built_children items_); [done|]. by apply odict_get_Some_elem.
Qed.

Lemma parents_loop_view s fuel : ∀ current parents,
  parents_loop fuel s current parents =
  parents_view fuel (view s) ((λ a, item (node_at s a)) <$> current) parents.
Proof.
  induction fuel as [|fuel IH]; intros [a|] parents; simpl; try done.
  destruct (item (node_at s a) !! "parent") as [p|]; [|done].
  by rewrite IH, view_get.
Qed.

Lemma get_all_parents_view fuel s k :
  get_all_parents fuel s k = parents_view fuel (view s) (odict_get k (view s)) [].
Proof. unfold get_all_parents. by rewrite parents_loop_view, view_get. Qed.

Lemma view_nil s : view s = [] ↔ nodes_map s = [].
Proof. unfold view. split; [apply fmap_nil_inv | by intros ->]. Qed.

Lemma print_tree_view items_ s :
  built items_ s →
  ∀ fuel k a indent, (k, a) ∈ nodes_map s →
    print_tree fuel s (Some a) indent =
    print_view fuel (view s) (item (node_at s a)) indent.
Proof.
  intros Hb. pose proof (built_spec _ _ Hb) as (_ & Hok & _ & _ & _ & Hch & _).
  induction fuel as [|fuel IH]; intros k a indent Hin; cbn [print_tree print_view];
    [done|].
  destruct (decide (nodes_map s = [])) as [Hnil|Hnn].
  - rewrite decide_True by by apply view_nil. done.
  - rewrite decide_False by by rewrite view_nil.
    assert (dict_get (item (node_at s a)) "id" = k) as ->.
    { destruct Hok as [_ Hent]. destruct (Hent _ _ Hin) as [_ Hid].
      unfold dict_get. by rewrite Hid. }
    rewrite <-(built_children items_ s k a) by done.
    rewrite foldl_fmap. apply foldl_ext_in. intros acc c Hc.
    rewrite Hch in Hc. apply list_elem_of_filter in Hc as [_ Hc].
    apply list_elem_of_fmap in Hc as ([k' c'] & -> & Hc). simpl.
    by rewrite (IH k').
Qed.

Lemma built_root items_ s :
  built items_ s → (λ a, item (node_at s a)) <$> root_node s = root_in (view s).
Proof.
  intros (_ & _ & _ & _ & _ & _ & Hroot)%built_spec.
  rewrite Hroot. unfold root_in. rewrite view_values. unfold get_all.
  rewrite filter_fmap_list, fmap_last. done.
Qed.

Lemma built_root_elem items_ s a :
  built items_ s → root_node s = Some a → ∃ k, (k, a) ∈ nodes_map s.
Proof.
  intros (_ & _ & _ & _ & _ & _ & Hroot)%built_spec. rewrite Hroot.
  intros Hl%last_Some_elem_of. apply list_elem_of_filter in Hl as [_ Hl].
  apply list_elem_of_fmap in Hl as ([k c] & -> & Hc). by exists k.
Qed.

Lemma print_tree_top items_ s fuel :
  built items_ s → print_tree fuel s None 0 = print_top fuel (view s).
Proof.
  intros Hb. destruct fuel as [|fuel]; [done|].
  pose proof (built_root _ _ Hb) as Hroot.
  unfold print_top. rewrite <-Hroot.
  destruct (root_node s) as [a|] eqn:Ha.
  - destruct (built_root_elem _ _ _ Hb Ha) as [k Hk].
    change ((λ a0, item (node_at s a0)) <$> Some a) with (Some (item (node_at s a))).
    cbv iota beta.
    rewrite <-(print_tree_view items_ s Hb (S fuel) k a 0 Hk).
    cbn [print_tree]. rewrite Ha.
    destruct (decide (nodes_map s = [])) as [Hnil|Hnn].
    + by rewrite decide_True by by apply view_nil.
    + by rewrite decide_False by by rewrite view_nil.
  - cbn [print_tree]. rewrite Ha.
    destruct (decide (nodes_map s = [])) as [Hnil|Hnn].
    + by rewrite decide_True by by apply view_nil.
    + by rewrite decide_False by by rewrite view_nil.
Qed.

(** ** The ancestor walk *)

Lemma parent_link_det s a b b' : parent_link s a b → parent_link s a b' → b = b'.
Proof. intros (p & Hp & Hb) (p' & Hp' & Hb'). congruence. Qed.

Lemma parent_link_addr s a b : parent_link s a b → b ∈ odict_values (nodes_map s).
Proof.
  intros (p & _ & Hb%odict_get_Some_elem). unfold odict_values.
  apply list_elem_of_fmap. by exists (p, b).
Qed.

(** More fuel does not change an answer. *)
Lemma parents_loop_fuel_mono s fuel fuel' : ∀ current parents,
  fuel ≤ fuel' →
  parents_loop fuel s current parents ≠ OutOfFuel →
  parents_loop fuel' s current parents = parents_loop fuel s current parents.
Proof.
  revert fuel'. induction fuel as [|fuel IH]; intros fuel' [a|] parents Hle.
  - done.
  - by destruct fuel'.
  - destruct fuel' as [|fuel']; [lia|]. simpl.
    destruct (item (node_at s a) !! "parent") as [p|]; [|done].
    apply IH. lia.
  - by destruct fuel'.
Qed.

(** A walk that meets no cycle ends within as many iterations as there are
    nodes: [vs] are the nodes already passed. *)
Lemma parents_loop_acyclic s fuel : ∀ vs a parents,
  NoDup vs →
  (∀ v, v ∈ vs → v ∈ odict_values (nodes_map s)) →
  a ∈ odict_values (nodes_map s) →
  (∀ v, v ∈ vs → tc (parent_link s) v a) →
  (∀ c, rtc (parent_link s) a c → ¬ tc (parent_link s) c c) →
  length (nodes_map s) ≤ fuel + length vs →
  parents_loop fuel s (Some a) parents ≠ OutOfFuel.
Proof.
  induction fuel as [|fuel IH]; intros vs a parents Hnd Hsub Ha Hreach Hacyc Hlen.
  - exfalso.
    assert (a ∉ vs) as Hnotin.
    { intros Hin. apply (Hacyc a); [done | by apply Hreach]. }
    assert (length (a :: vs) ≤ length (odict_values (nodes_map s))) as Hle.
    { apply submseteq_length, NoDup_submseteq; [by apply NoDup_cons|].
      intros x [->|Hx]%elem_of_cons; auto. }
    unfold odict_values in Hle. rewrite length_fmap in Hle. simpl in Hle. lia.
  - simpl. destruct (item (node_at s a) !! "parent") as [p|] eqn:Hp; [|done].
    destruct (odict_get p (nodes_map s)) as [b|] eqn:Hb; [|by destruct fuel].
    assert (parent_link s a b) as Hab by by exists p.
    assert (a ∉ vs) as Hnotin.
    { intros Hin. apply (Hacyc a); [done | by apply Hreach]. }
    apply (IH (a :: vs)).
    + by apply NoDup_cons.
    + intros x [->|Hx]%elem_of_cons; auto.
    + by apply (parent_link_addr s a).
    + intros x [->|Hx]%elem_of_cons; [by apply tc_once|].
      eapply tc_r; [by apply Hreach | done].
    + intros c Hc. apply Hacyc. by eapply rtc_l.
    + simpl. lia.
Qed.

(** A walk that meets a cycle never ends. *)
Lemma cycle_step s a c :
  rtc (parent_link s) a c → tc (parent_link s) c c →
  ∃ b, parent_link s a b ∧ rtc (parent_link s) b c.
Proof.
  intros [->|(b & Hab & Hbc)]%rtc_inv Hcc; [|by exists b].
  inversion Hcc as [? ? Hstep|? b ? Hstep Hrest]; subst.
  - exists c. split; [done | apply rtc_refl].
  - exists b. split; [done | by apply tc_rtc].
Qed.

Lemma parents_loop_cycle s fuel : ∀ a c parents,
  rtc (parent_link s) a c → tc (parent_link s) c c →
  parents_loop fuel s (Some a) parents = OutOfFuel.
Proof.
  induction fuel as [|fuel IH]; intros a c parents Hac Hcc; [done|].
  destruct (cycle_step s a c Hac Hcc) as (b & (p & Hp & Hb) & Hbc).
  simpl. rewrite Hp, Hb. by apply (IH b c).
Qed.

Lemma parents_loop_length s fuel : ∀ current parents l,
  parents_loop fuel s current parents = Ret l →
  length l ≤ length parents + fuel.
Proof.
  induction fuel as [|fuel IH]; intros [a|] parents l; simpl; try done.
  - intros [= <-]. lia.
  - destruct (item (node_at s a) !! "parent") as [p|]; [|done].
    intros Hl%IH. rewrite length_app in Hl. simpl in Hl. lia.
  - intros [= <-]. lia.
Qed.

(** The only exception the walk raises is the [KeyError] of a record
    without [parent] field. *)
Lemma parents_loop_raise s fuel : ∀ current parents e,
  parents_loop fuel s current parents = Raise e →
  e = KeyError "parent" ∧
  ∃ a b, current = Some a ∧ rtc (parent_link s) a b ∧
         item (node_at s b) !! "parent" = None.
Proof.
  induction fuel as [|fuel IH]; intros [a|] parents e; simpl; try done.
  destruct (item (node_at s a) !! "parent") as [p|] eqn:Hp.
  - intros (-> & a' & b & Ha' & Hrtc & Hb)%IH. split; [done|].
    exists a, b. split_and!; [done| |done].
    eapply rtc_l; [|done]. by exists p.
  - intros [= <-]. split; [done|]. exists a, a. split_and!; [done| |done].
    apply rtc_refl.
Qed.

Lemma parents_loop_parentless s a b :
  rtc (parent_link s) a b → item (node_at s b) !! "parent" = None →
  ∃ fuel, ∀ parents, parents_loop fuel s (Some a) parents = Raise (KeyError "parent").
Proof.
  intros Hrtc Hb. induction Hrtc as [a|a a' b (p & Hp & Ha') _ IH].
  - exists 1. intros parents. simpl. by rewrite Hb.
  - destruct (IH Hb) as [fuel Hfuel]. exists (S fuel). intros parents.
    simpl. by rewrite Hp, Ha'.
Qed.

Lemma get_all_parents_cyclic s id_ fuel :
  cyclic_from s id_ → get_all_parents fuel s id_ = OutOfFuel.
Proof.
  intros (c & (a0 & Ha0 & Hrtc) & Hcc). unfold get_all_parents. rewrite Ha0.
  by apply (parents_loop_cycle s fuel a0 c).
Qed.

Lemma get_all_parents_acyclic s id_ :
  ¬ cyclic_from s id_ →
  get_all_parents (length (nodes_map s)) s id_ ≠ OutOfFuel.
Proof.
  intros Hacyc. unfold get_all_parents.
  destruct (odict_get id_ (nodes_map s)) as [a0|] eqn:Ha0;
    [|by destruct (length _)].
  apply (parents_loop_acyclic s _ []).
  - apply NoDup_nil_2.
  - intros v Hv. by apply elem_of_nil in Hv.
  - apply odict_get_Some_elem in Ha0. unfold odict_values.
    apply list_elem_of_fmap. by exists (id_, a0).
  - intros v Hv. by apply elem_of_nil in Hv.
  - intros c Hc Hcc. apply Hacyc. exists c. split; [by exists a0 | done].
  - simpl. lia.
Qed.

Lemma get_all_parents_raise s id_ fuel e :
  get_all_parents fuel s id_ = Raise e →
  e = KeyError "parent" ∧ visits_parentless s id_.
Proof.
  unfold get_all_parents.
  intros (-> & a & b & Ha & Hrtc & Hb)%parents_loop_raise. split; [done|].
  exists b. split; [by exists a | done].
Qed.

Lemma get_all_parents_parentless s id_ :
  visits_parentless s id_ →
  ∃ fuel, get_all_parents fuel s id_ = Raise (KeyError "parent").
Proof.
  intros (b & (a & Ha & Hrtc) & Hb).
  destruct (parents_loop_parentless s a b Hrtc Hb) as [fuel Hfuel].
  exists fuel. unfold get_all_parents. by rewrite Ha.
Qed.

(** ** Lookups in the index of an input with distinct ids *)

Lemma index_lookup items_ r k :
  NoDup (ids items_) → r ∈ items_ → r !! "id" = Some k →
  odict_get k (index_of items_) = Some r.
Proof.
  intros Hnd Hr Hk. apply odict_get_elem_NoDup.
  - by rewrite index_of_keys, first_seen_id.
  - rewrite index_of_distinct by done. apply list_elem_of_fmap. exists r.
    split; [|done]. unfold dict_get. by rewrite Hk.
Qed.

Lemma index_lookup_None items_ k :
  k ∉ ids items_ → odict_get k (index_of items_) = None.
Proof.
  intros Hk. apply odict_get_None. by rewrite index_of_keys, first_seen_elem.
Qed.

Lemma index_elem_gen items_ : ∀ (d : list (value * record)) k r,
  (k, r) ∈ foldl (λ d r, odict_set (dict_get r "id") r d) d items_ →
  (k, r) ∈ d ∨ (r ∈ items_ ∧ dict_get r "id" = k).
Proof.
  induction items_ as [|r0 rest IH]; intros d k r; csimpl; [by left|].
  intros [[[-> ->]|Hin]%odict_set_elem|[Hin Hk]]%IH.
  - right. split; [apply elem_of_cons; by left | done].
  - by left.
  - right. split; [apply elem_of_cons; by right | done].
Qed.

Lemma index_lookup_Some items_ r k :
  odict_get k (index_of items_) = Some r →
  r ∈ items_ ∧ dict_get r "id" = k.
Proof.
  intros Hget%odict_get_Some_elem. unfold index_of in Hget.
  apply index_elem_gen in Hget as [Hin|?]; [|done]. by apply elem_of_nil in Hin.
Qed.

Lemma ids_elem items_ k :
  Forall (λ r, is_Some (r !! "id")) items_ →
  k ∈ ids items_ ↔ ∃ r, r ∈ items_ ∧ r !! "id" = Some k.
Proof.
  intros Hall. unfold ids. rewrite list_elem_of_fmap. split.
  - intros (r & -> & Hr). exists r. split; [done|].
    rewrite Forall_forall in Hall. destruct (Hall r Hr) as [k Hk].
    unfold dict_get. by rewrite Hk.
  - intros (r & Hr & Hk). exists r. split; [|done]. unfold dict_get. by rewrite Hk.
Qed.

Lemma built_keys items_ s :
  built items_ s → odict_keys (nodes_map s) = first_seen (ids items_).
Proof.
  intros (_ & _ & Hview & _)%built_spec.
  by rewrite <-view_keys, Hview, index_of_keys.
Qed.

Lemma built_last items_ s k :
  built items_ s → k ∈ ids items_ →
  ∃ a r, odict_get k (nodes_map s) = Some a ∧
         items_ !! a = Some r ∧ r !! "id" = Some k ∧
         (∀ j r', a < j → items_ !! j = Some r' → r' !! "id" ≠ Some k) ∧
         item (node_at s a) = r.
Proof.
  intros Hb Hk.
  pose proof (built_spec _ _ Hb) as (Hall & _ & _ & _ & Hget & _).
  apply (ids_elem _ _ Hall) in Hk as (r0 & Hr0 & Hk0).
  destruct (last_pos k items_) as [a|] eqn:Hl.
  - pose proof (proj1 (last_pos_Some k items_ a) Hl) as (r & Hr & Hid & Hlast).
    exists a, r. split_and!; try done.
    + by rewrite Hget.
    + by apply (built_item items_).
  - exfalso. by apply (proj1 (last_pos_None k items_) Hl r0).
Qed.

(** Closed decidable goals, by evaluation. *)
Ltac by_compute := apply (bool_decide_unpack _); vm_compute; exact I.

(** ** Properties of the index and of the queries *)

(** C6.  When an id occurs several times in the input, the index keeps one
    entry per distinct id, in the order in which the ids were first seen,
    and the entry of an id is the node made for the last record that bears
    it. *)
Theorem index_duplicate_ids fuel items_ s out :
  TreeStore_init fuel items_ = Ret (s, out) →
  odict_keys (nodes_map s) = first_seen (ids items_) ∧
  NoDup (odict_keys (nodes_map s)) ∧
  (∀ k, k ∈ odict_keys (nodes_map s) ↔ k ∈ ids items_) ∧
  ∀ k, k ∈ ids items_ →
    ∃ a r, odict_get k (nodes_map s) = Some a ∧
           items_ !! a = Some r ∧ r !! "id" = Some k ∧
           (∀ j r', a < j → items_ !! j = Some r' → r' !! "id" ≠ Some k) ∧
           item (node_at s a) = r.
Proof.
  intros Hb%init_built. pose proof (built_keys _ _ Hb) as Hkeys.
  split_and!.
  - done.
  - rewrite Hkeys. apply first_seen_NoDup.
  - intros k. by rewrite Hkeys, first_seen_elem.
  - intros k Hk. by apply built_last.
Qed.

Lemma index_duplicate_ids_witness :
  TreeStore_init 2 dup_items = Ret (dup_store, ["1"; "    2"; EmptyString]) ∧
  odict_keys (nodes_map dup_store) = first_seen (ids dup_items) ∧
  first_seen (ids dup_items) = [VInt 1; VInt 2] ∧
  item (node_at dup_store 2) = rec3 1 root_mark (VStr "new").
Proof.
  assert (TreeStore_init 2 dup_items = Ret (dup_store, ["1"; "    2"; EmptyString]))
    as Hinit by (vm_compute; reflexivity).
  destruct (index_duplicate_ids 2 dup_items dup_store _ Hinit)
    as (Hkeys & _ & _ & Hlast).
  split_and!; [exact Hinit | exact Hkeys | vm_compute; reflexivity..].
Defined.

(** C7.  With pairwise distinct ids, [get_all] returns the input records,
    each once, in input order and unchanged. *)
Theorem get_all_input_order fuel items_ s out :
  TreeStore_init fuel items_ = Ret (s, out) →
  NoDup (ids items_) →
  get_all s = items_.
Proof.
  intros (_ & _ & Hview & _)%init_built%built_spec Hnd.
  rewrite get_all_view, Hview, index_of_distinct by done.
  unfold odict_values. rewrite <-list_fmap_compose. apply list_fmap_id.
Qed.

Lemma get_all_input_order_witness :
  TreeStore_init 4 items = Ret (ts, ts_out) ∧ NoDup (ids items) ∧ get_all ts = items.
Proof.
  assert (TreeStore_init 4 items = Ret (ts, ts_out)) as Hinit
    by (vm_compute; reflexivity).
  assert (NoDup (ids items)) as Hnd by by_compute.
  split_and!; [exact Hinit | exact Hnd |].
  exact (get_all_input_order 4 items ts ts_out Hinit Hnd).
Defined.

(** C8.  [get_item] returns the record supplied for an id of the index
    (the last one supplied, if the id was supplied several times), and the
    empty mapping for an id that was never supplied. *)
Theorem get_item_spec fuel items_ s out :
  TreeStore_init fuel items_ = Ret (s, out) →
  (∀ id_, id_ ∈ odict_keys (nodes_map s) →
     ∃ i r, items_ !! i = Some r ∧ r !! "id" = Some id_ ∧
            (∀ j r', i < j → items_ !! j = Some r' → r' !! "id" ≠ Some id_) ∧
            get_item s id_ = r) ∧
  (∀ id_, id_ ∉ ids items_ → get_item s id_ = ∅).
Proof.
  intros Hb%init_built. split.
  - intros id_ Hin. rewrite (built_keys _ _ Hb), first_seen_elem in Hin.
    destruct (built_last _ _ _ Hb Hin) as (a & r & Hget & Hr & Hid & Hlast & Hit).
    exists a, r. split_and!; try done. unfold get_item. by rewrite Hget.
  - intros id_ Hnotin. unfold get_item.
    rewrite <-first_seen_elem, <-(built_keys _ _ Hb) in Hnotin.
    apply odict_get_None in Hnotin. by rewrite Hnotin.
Qed.

Lemma get_item_spec_witness :
  TreeStore_init 4 items = Ret (ts, ts_out) ∧
  get_item ts (VInt 7) = rec3 7 (VInt 4) VNone ∧
  get_item ts (VInt 9) = ∅.
Proof.
  assert (TreeStore_init 4 items = Ret (ts, ts_out)) as Hinit
    by (vm_compute; reflexivity).
  destruct (get_item_spec 4 items ts ts_out Hinit) as [Hin Hout].
  split_and!; [exact Hinit | vm_compute; reflexivity |].
  apply Hout. by_compute.
Defined.

(** C5 as the specification states it fails when the sentinel is an id of
    the index: the records marked "root" are never children, not even of
    a node whose id is "root". *)
Lemma get_children_sentinel_id :
  TreeStore_init 1 sentinel_items = Ret (sentinel_store, ["a"; EmptyString]) ∧
  NoDup (ids sentinel_items) ∧
  VStr "root" ∈ odict_keys (nodes_map sentinel_store) ∧
  filter (λ r, r !! "parent" = Some (VStr "root")) sentinel_items = sentinel_items ∧
  get_children sentinel_store (VStr "root") = [].
Proof.
  split_and!; [vm_compute; reflexivity | by_compute | by_compute | by_compute |
               vm_compute; reflexivity].
Qed.

(** C5, amended.  With pairwise distinct ids, [get_children] of an id of
    the index other than the sentinel returns the input records whose parent
    (as [build_tree] reads it, with [get]) is that id, in input order, so
    no deeper descendant; it returns the empty list for an id that is not
    in the index and for the sentinel. *)
Theorem get_children_spec fuel items_ s out :
  TreeStore_init fuel items_ = Ret (s, out) →
  NoDup (ids items_) →
  ∀ id_,
    get_children s id_ =
      if decide (id_ ∈ ids items_ ∧ id_ ≠ root_mark)
      then filter (λ r, dict_get r "parent" = id_) items_
      else [].
Proof.
  intros Hb%init_built Hnd id_.
  pose proof (built_spec _ _ Hb) as (_ & _ & Hview & _).
  rewrite (get_children_view items_) by done. rewrite Hview.
  assert (odict_values (index_of items_) = items_) as Hvals.
  { rewrite index_of_distinct by done. unfold odict_values.
    rewrite <-list_fmap_compose. apply list_fmap_id. }
  destruct (odict_get id_ (index_of items_)) as [r|] eqn:Hget.
  - assert (id_ ∈ ids items_) as Hin.
    { rewrite <-first_seen_elem, <-index_of_keys. apply odict_get_is_Some. eauto. }
    unfold children_in. rewrite Hvals.
    destruct (decide (id_ ∈ ids items_ ∧ id_ ≠ root_mark)) as [[_ Hne]|Hn].
    + apply list_filter_iff. intros r'. split; [by intros [_ ?]|].
      intros ->. done.
    + apply filter_none. intros r' _ [Hr Hp]. apply Hn. split; [done|].
      by rewrite <-Hp.
  - rewrite decide_False; [done|]. intros [Hin _].
    rewrite <-first_seen_elem, <-index_of_keys in Hin.
    apply odict_get_None in Hget. done.
Qed.

Lemma get_children_spec_witness :
  TreeStore_init 4 items = Ret (ts, ts_out) ∧ NoDup (ids items) ∧
  get_children ts (VInt 4) = [rec3 7 (VInt 4) VNone; rec3 8 (VInt 4) VNone] ∧
  get_children ts (VInt 5) = [].
Proof.
  assert (TreeStore_init 4 items = Ret (ts, ts_out)) as Hinit
    by (vm_compute; reflexivity).
  assert (NoDup (ids items)) as Hnd by by_compute.
  pose proof (get_children_spec 4 items ts ts_out Hinit Hnd) as Hch.
  split_and!; [exact Hinit | exact Hnd | |].
  - rewrite (Hch (VInt 4)). vm_compute. reflexivity.
  - rewrite (Hch (VInt 5)). vm_compute. reflexivity.
Defined.

(** ** Construction and malformed input *)

Lemma index_items_no_id items_ : ∀ s,
  (∃ r, r ∈ items_ ∧ r !! "id" = None) →
  index_items items_ s = Raise (KeyError "id").
Proof.
  induction items_ as [|r0 rest IH]; intros s (r & Hr & Hid).
  - by apply elem_of_nil in Hr.
  - cbn [index_items]. destruct (r0 !! "id") as [k|] eqn:Hk; [|done].
    apply IH. exists r. split; [|done].
    apply elem_of_cons in Hr as [->|Hr]; [congruence | done].
Qed.

Lemma index_items_total items_ : ∀ s,
  Forall (λ r, is_Some (r !! "id")) items_ → ∃ s', index_items items_ s = Ret s'.
Proof.
  induction items_ as [|r0 rest IH]; intros s Hall; [by exists s|].
  apply Forall_cons in Hall as [[k Hk] Hall]. cbn [index_items]. rewrite Hk.
  by apply IH.
Qed.

(** C3 as the specification states it fails for a record without [parent]
    field: construction completes, and the record is in the index. *)
Lemma missing_parent_accepted :
  (∃ r, r ∈ no_parent_items ∧ r !! "parent" = None) ∧
  TreeStore_init 1 no_parent_items = Ret (no_parent_store, ["1"; EmptyString]) ∧
  get_all no_parent_store = no_parent_items.
Proof.
  split_and!; [|vm_compute; reflexivity..].
  exists {[ "id" := VInt 2 ]}. split; [by_compute | vm_compute; reflexivity].
Qed.

(** C3, amended.  When a record of the input has no [id] field,
    construction raises [KeyError] and no store is produced. *)
Theorem construction_missing_id fuel items_ :
  (∃ r, r ∈ items_ ∧ r !! "id" = None) →
  TreeStore_init fuel items_ = Raise (KeyError "id").
Proof.
  intros H. unfold TreeStore_init, build_tree.
  by rewrite index_items_no_id.
Qed.

Lemma construction_missing_id_witness :
  (∃ r, r ∈ no_id_items ∧ r !! "id" = None) ∧
  TreeStore_init 4 no_id_items = Raise (KeyError "id").
Proof.
  assert (∃ r, r ∈ no_id_items ∧ r !! "id" = None) as Hex.
  { exists {[ "parent" := VInt 1 ]}. split; [by_compute | vm_compute; reflexivity]. }
  split; [exact Hex | exact (construction_missing_id 4 no_id_items Hex)].
Defined.

(** C1: construction on an input without root-marked record.  The two
    loops complete and leave [root_node] unset, then [print_tree]
    dereferences it. *)
Theorem construction_without_root fuel :
  TreeStore_init (S fuel) rootless_items = Raise (AttributeError "item").
Proof. destruct fuel; vm_compute; reflexivity. Qed.

(** ** Termination and exceptions of [get_all_parents] *)

Lemma cyclic_store_init :
  TreeStore_init 1 cyclic_items = Ret (cyclic_store, ["1"; EmptyString]).
Proof. vm_compute. reflexivity. Qed.

Lemma cyclic_store_cycle : cyclic_from cyclic_store (VInt 2).
Proof.
  exists 1. split.
  - exists 1. split; [vm_compute; reflexivity | apply rtc_refl].
  - apply tc_l with 2; [|apply tc_once].
    + exists (VInt 3). split; vm_compute; reflexivity.
    + exists (VInt 2). split; vm_compute; reflexivity.
Qed.

Lemma cyclic_store_no_exception fuel e :
  get_all_parents fuel cyclic_store (VInt 2) ≠ Raise e.
Proof. rewrite get_all_parents_cyclic by apply cyclic_store_cycle. done. Qed.

(** C2 as the specification states it fails: on two records that name each
    other as parent the walk is still running after any number of
    iterations. *)
Lemma get_all_parents_cycle_diverges :
  TreeStore_init 1 cyclic_items = Ret (cyclic_store, ["1"; EmptyString]) ∧
  ∀ fuel, get_all_parents fuel cyclic_store (VInt 2) = OutOfFuel.
Proof.
  split; [apply cyclic_store_init|].
  intros fuel. apply get_all_parents_cyclic, cyclic_store_cycle.
Qed.

(** C2, amended.  [get_all_parents] terminates exactly when the walk meets
    no cycle.  It then ends within as many iterations as the index has
    entries, with a list of at most that many records, or with the
    [KeyError] of a record without [parent] field; on a cycle it does not
    terminate. *)
Theorem get_all_parents_terminates fuel0 items_ s out id_ :
  TreeStore_init fuel0 items_ = Ret (s, out) →
  (¬ cyclic_from s id_ →
     ∃ fuel, fuel ≤ length (nodes_map s) ∧
       ((∃ l, get_all_parents fuel s id_ = Ret l ∧
              length l ≤ length (nodes_map s)) ∨
        (visits_parentless s id_ ∧
         get_all_parents fuel s id_ = Raise (KeyError "parent")))) ∧
  (cyclic_from s id_ → ∀ fuel, get_all_parents fuel s id_ = OutOfFuel).
Proof.
  intros _. split.
  - intros Hacyc. exists (length (nodes_map s)). split; [done|].
    pose proof (get_all_parents_acyclic s id_ Hacyc) as Hterm.
    destruct (get_all_parents (length (nodes_map s)) s id_) as [l|e|] eqn:Hres;
      [| |done].
    + left. exists l. split; [done|].
      apply parents_loop_length in Hres. simpl in Hres. lia.
    + right. by apply get_all_parents_raise in Hres as [-> ?].
  - intros Hcyc fuel. by apply get_all_parents_cyclic.
Qed.

Lemma get_all_parents_terminates_witness :
  TreeStore_init 4 items = Ret (ts, ts_out) ∧
  ¬ cyclic_from ts (VInt 7) ∧
  ∃ fuel, fuel ≤ 8 ∧ get_all_parents fuel ts (VInt 7) ≠ OutOfFuel.
Proof.
  assert (TreeStore_init 4 items = Ret (ts, ts_out)) as Hinit
    by (vm_compute; reflexivity).
  assert (¬ cyclic_from ts (VInt 7)) as Hacyc.
  { intros Hcyc. apply (get_all_parents_cyclic ts (VInt 7) 4) in Hcyc.
    vm_compute in Hcyc. discriminate Hcyc. }
  split_and!; [exact Hinit | exact Hacyc |].
  destruct (get_all_parents_terminates 4 items ts ts_out (VInt 7) Hinit)
    as [Hterm _].
  destruct (Hterm Hacyc) as (fuel & Hle & Hres). exists fuel. split; [exact Hle|].
  destruct Hres as [(l & -> & _)|[_ ->]]; discriminate.
Defined.

(** C10 as the specification states it fails: no record of the walk lacks a
    [parent] field, and yet the call does not return. *)
Lemma get_all_parents_neither_raises_nor_returns :
  TreeStore_init 1 cyclic_items = Ret (cyclic_store, ["1"; EmptyString]) ∧
  ¬ visits_parentless cyclic_store (VInt 2) ∧
  ∀ fuel l, get_all_parents fuel cyclic_store (VInt 2) ≠ Ret l.
Proof.
  split_and!; [apply cyclic_store_init | |].
  - intros [fuel Hraise]%get_all_parents_parentless.
    by apply cyclic_store_no_exception in Hraise.
  - intros fuel l.
    rewrite get_all_parents_cyclic by apply cyclic_store_cycle. done.
Qed.

(** C10, amended.  [get_all_parents] raises exactly when the walk reaches a
    record without [parent] field, and what it raises is [KeyError]; when it
    reaches none, it returns normally provided the walk meets no cycle, and
    runs forever otherwise. *)
Theorem get_all_parents_key_error fuel0 items_ s out id_ :
  TreeStore_init fuel0 items_ = Ret (s, out) →
  ((∃ fuel, get_all_parents fuel s id_ = Raise (KeyError "parent")) ↔
   visits_parentless s id_) ∧
  (∀ fuel e, get_all_parents fuel s id_ = Raise e → e = KeyError "parent") ∧
  (¬ visits_parentless s id_ → ¬ cyclic_from s id_ →
     ∃ fuel l, get_all_parents fuel s id_ = Ret l) ∧
  (cyclic_from s id_ → ∀ fuel, get_all_parents fuel s id_ = OutOfFuel).
Proof.
  intros _. split_and!.
  - split; [|apply get_all_parents_parentless].
    intros [fuel Hraise]. by apply get_all_parents_raise in Hraise as [_ ?].
  - intros fuel e Hraise. by apply get_all_parents_raise in Hraise as [? _].
  - intros Hnp Hacyc. exists (length (nodes_map s)).
    pose proof (get_all_parents_acyclic s id_ Hacyc) as Hterm.
    destruct (get_all_parents (length (nodes_map s)) s id_) as [l|e|] eqn:Hres;
      [by exists l| |done].
    by apply get_all_parents_raise in Hres as [_ ?].
  - intros Hcyc fuel. by apply get_all_parents_cyclic.
Qed.

Lemma get_all_parents_key_error_witness :
  TreeStore_init 1 no_parent_items = Ret (no_parent_store, ["1"; EmptyString]) ∧
  visits_parentless no_parent_store (VInt 2) ∧
  ∃ fuel, get_all_parents fuel no_parent_store (VInt 2) = Raise (KeyError "parent").
Proof.
  assert (TreeStore_init 1 no_parent_items
          = Ret (no_parent_store, ["1"; EmptyString])) as Hinit
    by (vm_compute; reflexivity).
  assert (visits_parentless no_parent_store (VInt 2)) as Hvis.
  { exists 1. split; [|vm_compute; reflexivity].
    exists 1. split; [vm_compute; reflexivity | apply rtc_refl]. }
  split_and!; [exact Hinit | exact Hvis |].
  destruct (get_all_parents_key_error 1 no_parent_items no_parent_store _
              (VInt 2) Hinit) as [Hiff _].
  apply Hiff. exact Hvis.
Defined.

(** ** The ancestor chain in a well-formed tree *)

Lemma parents_view_None fuel d parents : parents_view fuel d None parents = Ret parents.
Proof. by destruct fuel. Qed.

Lemma parents_loop_None fuel s parents : parents_loop fuel s None parents = Ret parents.
Proof. by destruct fuel. Qed.

Lemma ancestor_chain items_ r d :
  NoDup (ids items_) → root_mark ∉ ids items_ → depth_in items_ r d →
  ∃ chain,
    length chain = S d ∧
    head chain = Some r ∧
    (∀ i x y, chain !! i = Some x → chain !! S i = Some y →
       y ∈ items_ ∧ ∃ pid, x !! "parent" = Some pid ∧ y !! "id" = Some pid) ∧
    (∃ top, last chain = Some top ∧ top !! "parent" = Some root_mark) ∧
    ∀ fuel parents, d < fuel →
      parents_view fuel (index_of items_) (Some r) parents = Ret (parents ++ chain).
Proof.
  intros Hnd Hroot Hd.
  induction Hd as [r Hr Hp|r p pid d Hr Hp Hne Hpin Hpid Hd IH].
  - exists [r]. split_and!; [done..| | |].
    + intros [|i] x y Hx Hy; done.
    + by exists r.
    + intros [|fuel] parents Hlt; [lia|]. simpl. rewrite Hp.
      rewrite index_lookup_None by done. apply parents_view_None.
  - destruct IH as (chain & Hlen & Hhead & Hlink & (top & Htop & Htp) & Hrun).
    exists (r :: chain). split_and!.
    + simpl. by rewrite Hlen.
    + done.
    + intros [|i] x y Hx Hy.
      * simpl in Hx, Hy. injection Hx as <-.
        rewrite <-head_lookup, Hhead in Hy. injection Hy as <-.
        split; [done|]. by exists pid.
      * by apply (Hlink i).
    + exists top. split; [|done]. by rewrite last_cons, Htop.
    + intros [|fuel] parents Hlt; [lia|]. simpl. rewrite Hp.
      rewrite (index_lookup items_ p pid) by done.
      rewrite Hrun by lia. by rewrite <-app_assoc.
Qed.

(** C4.  In a store built from a well-formed rooted tree, [get_all_parents]
    of the id of a record at depth [d] returns, after [d + 1] iterations, a
    list of [d + 1] records that starts with that record, in which each
    next record is the input record whose id is the [parent] of the one
    before, and whose last record is marked as root.  In any store it
    returns the empty list for an id that is not in the index, and just
    the record of the id when the [parent] of that record is the id of no
    input record. *)
Theorem get_all_parents_chain fuel0 items_ s out :
  TreeStore_init fuel0 items_ = Ret (s, out) →
  (well_formed_tree items_ →
   ∀ r id_ d, r ∈ items_ → r !! "id" = Some id_ → depth_in items_ r d →
     ∃ chain,
       (∀ fuel, d < fuel → get_all_parents fuel s id_ = Ret chain) ∧
       length chain = S d ∧
       head chain = Some r ∧
       (∀ i x y, chain !! i = Some x → chain !! S i = Some y →
          y ∈ items_ ∧ ∃ pid, x !! "parent" = Some pid ∧ y !! "id" = Some pid) ∧
       (∃ top, last chain = Some top ∧ top !! "parent" = Some root_mark)) ∧
  (∀ id_ fuel, id_ ∉ odict_keys (nodes_map s) →
     get_all_parents fuel s id_ = Ret []) ∧
  (∀ id_ p fuel, id_ ∈ odict_keys (nodes_map s) →
     get_item s id_ !! "parent" = Some p → p ∉ ids items_ →
     get_all_parents (S fuel) s id_ = Ret [get_item s id_]).
Proof.
  intros Hb%init_built.
  pose proof (built_spec _ _ Hb) as (_ & _ & Hview & _).
  split_and!.
  - intros (_ & Hnd & Hroot & _ & _) r id_ d Hr Hid Hd.
    destruct (ancestor_chain items_ r d Hnd Hroot Hd)
      as (chain & Hlen & Hhead & Hlink & Htop & Hrun).
    exists chain. split_and!; try done.
    intros fuel Hlt. rewrite get_all_parents_view, Hview.
    rewrite (index_lookup items_ r id_) by done. by rewrite Hrun.
  - intros id_ fuel Hnotin. unfold get_all_parents.
    apply odict_get_None in Hnotin. rewrite Hnotin. apply parents_loop_None.
  - intros id_ p fuel Hin Hp Hnotin. unfold get_all_parents, get_item in *.
    apply odict_get_is_Some in Hin as [a Ha]. rewrite Ha in *. simpl.
    rewrite Hp.
    rewrite <-first_seen_elem, <-(built_keys _ _ Hb) in Hnotin.
    apply odict_get_None in Hnotin. rewrite Hnotin. apply parents_loop_None.
Qed.

Ltac in_items := apply (bool_decide_unpack _); vm_compute; exact I.

Lemma items_depths :
  depth_in items (rec2 1 root_mark) 0 ∧
  depth_in items (rec3 2 (VInt 1) (VStr "test")) 1 ∧
  depth_in items (rec3 3 (VInt 1) (VStr "test")) 1 ∧
  depth_in items (rec3 4 (VInt 2) (VStr "test")) 2 ∧
  depth_in items (rec3 5 (VInt 2) (VStr "test")) 2 ∧
  depth_in items (rec3 6 (VInt 2) (VStr "test")) 2 ∧
  depth_in items (rec3 7 (VInt 4) VNone) 3 ∧
  depth_in items (rec3 8 (VInt 4) VNone) 3.
Proof.
  assert (depth_in items (rec2 1 root_mark) 0) as H1.
  { apply depth_root; [in_items | vm_compute; reflexivity]. }
  assert (depth_in items (rec3 2 (VInt 1) (VStr "test")) 1) as H2.
  { apply (depth_child items _ (rec2 1 root_mark) (VInt 1));
      [in_items | vm_compute; reflexivity | discriminate | in_items
      | vm_compute; reflexivity | exact H1]. }
  assert (depth_in items (rec3 4 (VInt 2) (VStr "test")) 2) as H4.
  { apply (depth_child items _ (rec3 2 (VInt 1) (VStr "test")) (VInt 2));
      [in_items | vm_compute; reflexivity | discriminate | in_items
      | vm_compute; reflexivity | exact H2]. }
  split_and!; try done.
  - apply (depth_child items _ (rec2 1 root_mark) (VInt 1));
      [in_items | vm_compute; reflexivity | discriminate | in_items
      | vm_compute; reflexivity | exact H1].
  - apply (depth_child items _ (rec3 2 (VInt 1) (VStr "test")) (VInt 2));
      [in_items | vm_compute; reflexivity | discriminate | in_items
      | vm_compute; reflexivity | exact H2].
  - apply (depth_child items _ (rec3 2 (VInt 1) (VStr "test")) (VInt 2));
      [in_items | vm_compute; reflexivity | discriminate | in_items
      | vm_compute; reflexivity | exact H2].
  - apply (depth_child items _ (rec3 4 (VInt 2) (VStr "test")) (VInt 4));
      [in_items | vm_compute; reflexivity | discriminate | in_items
      | vm_compute; reflexivity | exact H4].
  - apply (depth_child items _ (rec3 4 (VInt 2) (VStr "test")) (VInt 4));
      [in_items | vm_compute; reflexivity | discriminate | in_items
      | vm_compute; reflexivity | exact H4].
Defined.

Lemma items_well_formed : well_formed_tree items.
Proof.
  split_and!.
  - by_compute.
  - by_compute.
  - by_compute.
  - exists (rec2 1 root_mark). split_and!; [in_items | vm_compute; reflexivity |].
    apply (Forall_forall
             (λ r : record, r !! "parent" = Some root_mark → r = rec2 1 root_mark)
             items).
    by_compute.
  - destruct items_depths as (H1 & H2 & H3 & H4 & H5 & H6 & H7 & H8).
    apply Forall_forall.
    repeat (apply Forall_cons; split; [eauto|]). apply Forall_nil_2.
Defined.

Lemma get_all_parents_chain_witness :
  TreeStore_init 4 items = Ret (ts, ts_out) ∧
  well_formed_tree items ∧
  depth_in items (rec3 7 (VInt 4) VNone) 3 ∧
  ∃ chain, get_all_parents 4 ts (VInt 7) = Ret chain ∧ length chain = 4 ∧
           head chain = Some (rec3 7 (VInt 4) VNone).
Proof.
  assert (TreeStore_init 4 items = Ret (ts, ts_out)) as Hinit
    by (vm_compute; reflexivity).
  pose proof items_well_formed as Hwf.
  destruct items_depths as (_ & _ & _ & _ & _ & _ & H7 & _).
  split_and!; [exact Hinit | exact Hwf | exact H7 |].
  destruct (get_all_parents_chain 4 items ts ts_out Hinit) as (Hchain & _ & _).
  destruct (Hchain Hwf (rec3 7 (VInt 4) VNone) (VInt 7) 3)
    as (chain & Hrun & Hlen & Hhead & _);
    [in_items | vm_compute; reflexivity | exact H7 |].
  exists chain. split_and!; [apply Hrun; lia | exact Hlen | exact Hhead].
Defined.

(** ** Rebuilding a store from [get_all] *)

Lemma init_iff fuel items_ s out :
  TreeStore_init fuel items_ = Ret (s, out) ↔
  built items_ s ∧
  ∃ out', print_tree fuel s None 0 = Ret out' ∧ out = out' ++ [EmptyString].
Proof.
  unfold TreeStore_init, build_tree, built. split.
  - destruct (index_items items_ empty_store) as [s1| |] eqn:Hidx; simpl; [|done..].
    destruct (print_tree _ _ _ _) as [out'| |] eqn:Hpr; simpl; [|done..].
    intros [= <- <-]. split; [by exists s1 | by exists out'].
  - intros [(s1 & -> & ->) (out' & Hpr & ->)]. simpl. by rewrite Hpr.
Qed.

Lemma store_ok_view s :
  store_ok s →
  NoDup (odict_keys (view s)) ∧ ∀ k r, (k, r) ∈ view s → r !! "id" = Some k.
Proof.
  intros [Hnd Hent]. split; [by rewrite view_keys|].
  intros k r ([k' a] & [= -> ->] & Hin)%list_elem_of_fmap. simpl.
  by destruct (Hent _ _ Hin).
Qed.

Lemma built_get_all items_ s1 :
  built items_ s1 →
  ∃ s2, built (get_all s1) s2 ∧ view s2 = view s1.
Proof.
  intros Hb1. pose proof (built_spec _ _ Hb1) as (_ & Hok & _).
  destruct (store_ok_view _ Hok) as [Hnd Hid].
  assert (Forall (λ r, is_Some (r !! "id")) (get_all s1)) as Hall.
  { apply Forall_forall. intros r Hr. rewrite get_all_view in Hr.
    apply list_elem_of_fmap in Hr as ([k r'] & -> & Hin). simpl.
    rewrite (Hid k r' Hin). by eexists. }
  destruct (index_items_total (get_all s1) empty_store Hall) as [s' Hs'].
  exists (link_nodes (nodes_map s') s').
  assert (built (get_all s1) (link_nodes (nodes_map s') s')) as Hb2
    by by exists s'.
  split; [done|].
  pose proof (built_spec _ _ Hb2) as (_ & _ & -> & _).
  rewrite get_all_view. apply index_of_values; [done|].
  intros k r Hin. unfold dict_get. by rewrite (Hid k r Hin).
Qed.

(** C9.  A store rebuilt from the [get_all] of a constructed store is
    constructed as well, prints the same tree, and answers the four queries
    as the first store does: with the same results, the same exceptions and
    the same walks that do not end. *)
Theorem rebuild_from_get_all fuel items_ s1 out :
  TreeStore_init fuel items_ = Ret (s1, out) →
  ∃ s2,
    TreeStore_init fuel (get_all s1) = Ret (s2, out) ∧
    get_all s2 = get_all s1 ∧
    ∀ id_,
      get_item s2 id_ = get_item s1 id_ ∧
      get_children s2 id_ = get_children s1 id_ ∧
      ∀ fuel', get_all_parents fuel' s2 id_ = get_all_parents fuel' s1 id_.
Proof.
  intros [Hb1 (out' & Hpr & ->)]%init_iff.
  destruct (built_get_all _ _ Hb1) as (s2 & Hb2 & Hview).
  exists s2. split_and!.
  - apply init_iff. split; [done|]. exists out'. split; [|done].
    by rewrite (print_tree_top (get_all s1)), Hview,
      <-(print_tree_top items_).
  - by rewrite !get_all_view, Hview.
  - intros id_. split_and!.
    + by rewrite !get_item_view, Hview.
    + by rewrite (get_children_view (get_all s1)), (get_children_view items_),
        Hview.
    + intros fuel'. by rewrite !get_all_parents_view, Hview.
Qed.

Lemma rebuild_from_get_all_witness :
  TreeStore_init 2 dup_items = Ret (dup_store, ["1"; "    2"; EmptyString]) ∧
  ∃ s2,
    TreeStore_init 2 (get_all dup_store) = Ret (s2, ["1"; "    2"; EmptyString]) ∧
    get_all s2 = get_all dup_store ∧
    get_children s2 (VInt 1) = get_children dup_store (VInt 1).
Proof.
  assert (TreeStore_init 2 dup_items = Ret (dup_store, ["1"; "    2"; EmptyString]))
    as Hinit by (vm_compute; reflexivity).
  split; [exact Hinit|].
  destruct (rebuild_from_get_all 2 dup_items dup_store _ Hinit)
    as (s2 & Hinit2 & Hall & Hq).
  exists s2. split_and!; [exact Hinit2 | exact Hall | apply Hq].
Defined.

(** ** When construction completes *)

Lemma depth_view_det d r n m : depth_view d r n → depth_view d r m → n = m.
Proof.
  intros Hn. revert m.
  induction Hn as [r Hr Hp|r p n Hr Hp Hget Hn IH]; intros m Hm;
    inversion Hm as [? ? Hp'|? p' m' ? Hp' Hget' Hm']; subst; try done.
  f_equal. apply IH. congruence.
Qed.

Lemma depth_view_chain d r n :
  depth_view d r n →
  ∃ chain, length chain = S n ∧ NoDup chain ∧
    ∀ x, x ∈ chain → x ∈ odict_values d ∧ ∃ m, m ≤ n ∧ depth_view d x m.
Proof.
  induction 1 as [r Hr Hp|r p n Hr Hp Hget Hn (chain & Hlen & Hnd & Hall)].
  - exists [r]. split_and!; [done | apply NoDup_singleton |].
    intros x ->%list_elem_of_singleton. split; [done|].
    exists 0. split; [lia|]. by apply depth_view_root.
  - exists (r :: chain). split_and!.
    + simpl. by rewrite Hlen.
    + apply NoDup_cons. split; [|done].
      intros (_ & m & Hle & Hm)%Hall.
      assert (depth_view d r (S n)) as Hr' by by eapply depth_view_child.
      pose proof (depth_view_det _ _ _ _ Hm Hr'). lia.
    + intros x [->|Hx]%elem_of_cons.
      * split; [done|]. exists (S n). split; [lia|]. by eapply depth_view_child.
      * destruct (Hall x Hx) as (? & m & ? & ?). split; [done|].
        exists m. split; [lia | done].
Qed.

Lemma depth_view_bound d r n : depth_view d r n → n < length d.
Proof.
  intros (chain & Hlen & Hnd & Hall)%depth_view_chain.
  assert (length chain ≤ length (odict_values d)) as Hle.
  { apply submseteq_length, NoDup_submseteq; [done|].
    intros x Hx. by destruct (Hall x Hx). }
  unfold odict_values in Hle. rewrite length_fmap in Hle. lia.
Qed.

Lemma keyed_lookup d r :
  keyed_by_id d → r ∈ odict_values d → odict_get (dict_get r "id") d = Some r.
Proof.
  intros [Hnd Hid] ([k r'] & -> & Hin)%list_elem_of_fmap. simpl.
  rewrite (Hid k r' Hin). by apply odict_get_elem_NoDup.
Qed.

Lemma depth_view_children d r n c :
  keyed_by_id d → depth_view d r n → c ∈ children_in d (dict_get r "id") →
  depth_view d c (S n).
Proof.
  intros Hd Hr [[Hne Hp] Hc]%list_elem_of_filter.
  apply depth_view_child with r; [done | done | | done].
  rewrite Hp. apply keyed_lookup; [done|]. by inversion Hr.
Qed.

Lemma foldl_print_ret (f : record → outcome (list string)) (l : list record) :
  (∀ c, c ∈ l → ∃ o, f c = Ret o) →
  ∀ out0, ∃ out,
    foldl (λ acc c, let! out := acc in let! out' := f c in Ret (out ++ out'))
          (Ret out0) l = Ret out.
Proof.
  induction l as [|c l IH]; intros Hf out0; simpl; [by exists out0|].
  destruct (Hf c) as [o Ho]; [apply elem_of_cons; by left|].
  rewrite Ho. simpl. apply IH. intros c' Hc'. apply Hf, elem_of_cons. by right.
Qed.

(** The recursion of [print_tree] from a node at depth [n] under a root
    ends: no node is deeper than the index is long. *)
Lemma print_view_terminates d :
  keyed_by_id d →
  ∀ fuel r n indent,
    depth_view d r n → length d ≤ fuel + n →
    ∃ out, print_view fuel d r indent = Ret out.
Proof.
  intros Hd. induction fuel as [|fuel IH]; intros r n indent Hr Hlen.
  - apply depth_view_bound in Hr. simpl in Hlen. lia.
  - cbn [print_view]. destruct (decide (d = [])); [by eexists|].
    apply foldl_print_ret. intros c Hc.
    apply (IH c (S n)); [by eapply depth_view_children | lia].
Qed.



Lemma index_of_keyed items_ :
  Forall (λ r, is_Some (r !! "id")) items_ → keyed_by_id (index_of items_).
Proof.
  intros Hall. split.
  - rewrite index_of_keys. apply first_seen_NoDup.
  - intros k r Hin. unfold index_of in Hin.
    apply index_elem_gen in Hin as [Hin|[_ ?]]; [|done].
    by apply elem_of_nil in Hin.
Qed.

Lemma index_of_nil items_ : index_of items_ = [] ↔ items_ = [].
Proof.
  split; [|by intros ->]. intros Hnil.
  destruct items_ as [|r rest]; [done|]. exfalso.
  assert (dict_get r "id" ∈ odict_keys (index_of (r :: rest))) as Hin.
  { rewrite index_of_keys, first_seen_elem. apply elem_of_cons. by left. }
  rewrite Hnil in Hin. by apply elem_of_nil in Hin.
Qed.



(** ** The self-test of the module and the boundary cases *)

Example self_test :
  TreeStore_init 4 items = Ret (ts, ts_out) ∧
  get_all ts = items ∧
  get_item ts (VInt 7) = rec3 7 (VInt 4) VNone ∧
  get_children ts (VInt 4) = [rec3 7 (VInt 4) VNone; rec3 8 (VInt 4) VNone] ∧
  get_children ts (VInt 5) = [] ∧
  get_all_parents 4 ts (VInt 7) =
    Ret [rec3 7 (VInt 4) VNone; rec3 4 (VInt 2) (VStr "test");
         rec3 2 (VInt 1) (VStr "test"); rec2 1 root_mark].
Proof. split_and!; vm_compute; reflexivity. Qed.

Example empty_input :
  TreeStore_init 1 [] = Ret (empty_store, [EmptyString]) ∧
  get_all empty_store = [] ∧
  root_node empty_store = None ∧
  get_item empty_store (VInt 1) = ∅ ∧
  get_children empty_store (VInt 1) = [] ∧
  get_all_parents 0 empty_store (VInt 1) = Ret [].
Proof. split_and!; vm_compute; reflexivity. Qed.

Example orphan_record :
  TreeStore_init 1 orphan_items = Ret (orphan_store, ["1"; EmptyString]) ∧
  get_all orphan_store = orphan_items ∧
  get_children orphan_store (VInt 99) = [] ∧
  get_all_parents 1 orphan_store (VInt 2) = Ret [rec2 2 (VInt 99)].
Proof. split_and!; vm_compute; reflexivity. Qed.

(** Two records marked as root: the last one becomes the root.  The first
    one has the sentinel as id, so it is its own parent in the index. *)
Example sentinel_as_id :
  root_node sentinel_store = Some 1 ∧
  get_all_parents 2 sentinel_store (VStr "a") = OutOfFuel.
Proof. split_and!; vm_compute; reflexivity. Qed.

Example py_str_values :
  py_str (VInt (-12)) = "-12" ∧ py_str (VInt 0) = "0" ∧
  py_str VNone = "None" ∧ py_str (VStr "a") = "a" ∧ spaces 4 = "    ".
Proof. split_and!; vm_compute; reflexivity. Qed.

(** ** Further properties of construction *)

Lemma init_print_top fuel items_ s1 :
  index_items items_ empty_store = Ret s1 →
  TreeStore_init fuel items_ =
    let! out := print_top fuel (index_of items_) in
    Ret (link_nodes (nodes_map s1) s1, out ++ [EmptyString]).
Proof.
  intros Hs1.
  assert (built items_ (link_nodes (nodes_map s1) s1)) as Hb by by exists s1.
  pose proof (built_spec _ _ Hb) as (_ & _ & Hview & _).
  unfold TreeStore_init, build_tree. rewrite Hs1. cbn [bind].
  by rewrite (print_tree_top items_ _ fuel Hb), Hview.
Qed.

Lemma index_of_length items_ : length (index_of items_) ≤ length items_.
Proof.
  transitivity (length (odict_keys (index_of items_)));
    [unfold odict_keys; by rewrite length_fmap|].
  rewrite index_of_keys. unfold ids.
  induction items_ as [|r rest IH]; csimpl; [done|].
  pose proof (length_filter (λ y, y ≠ dict_get r "id")
                (first_seen ((λ r, dict_get r "id") <$> rest))). lia.
Qed.

Lemma print_top_terminates d fuel :
  keyed_by_id d → length d < fuel → print_top fuel d ≠ OutOfFuel.
Proof.
  intros Hd Hlen. destruct fuel as [|fuel]; [lia|].
  unfold print_top. destruct (decide (d = [])); [done|].
  unfold root_in.
  destruct (last (filter _ (odict_values d))) as [r|] eqn:Hlast; [|done].
  apply last_Some_elem_of, list_elem_of_filter in Hlast as [Hp Hr].
  destruct (print_view_terminates d Hd (S fuel) r 0 0) as [out ->];
    [by apply depth_view_root | lia | done].
Qed.

(** X1.  Construction always ends, within a recursion depth of one more
    than the number of records, also when the parent references of the
    input form cycles. *)
Theorem construction_never_diverges items_ fuel :
  length items_ < fuel → TreeStore_init fuel items_ ≠ OutOfFuel.
Proof.
  intros Hfuel.
  destruct (decide (Forall (λ r, is_Some (r !! "id")) items_)) as [Hall|Hex].
  - destruct (index_items_total items_ empty_store Hall) as [s1 Hs1].
    rewrite (init_print_top _ _ _ Hs1).
    pose proof (print_top_terminates (index_of items_) fuel
                  (index_of_keyed _ Hall)) as Hterm.
    pose proof (index_of_length items_).
    destruct (print_top fuel (index_of items_)); [done..|].
    exfalso. apply Hterm; [lia | done].
  - apply not_Forall_Exists in Hex; [|apply _].
    apply Exists_exists in Hex as (r & Hr & Hid).
    unfold TreeStore_init, build_tree. rewrite index_items_no_id; [done|].
    exists r. split; [done|]. by apply eq_None_not_Some.
Qed.

Lemma construction_never_diverges_witness :
  length cyclic_items < 4 ∧ TreeStore_init 4 cyclic_items ≠ OutOfFuel.
Proof.
  assert (length cyclic_items < 4) as Hlen by (vm_compute; lia).
  split; [exact Hlen | exact (construction_never_diverges cyclic_items 4 Hlen)].
Defined.

Lemma built_get_all_distinct items_ s :
  built items_ s → NoDup (ids items_) → get_all s = items_.
Proof.
  intros (_ & _ & Hview & _)%built_spec Hnd.
  rewrite get_all_view, Hview, index_of_distinct by done.
  unfold odict_values. rewrite <-list_fmap_compose. apply list_fmap_id.
Qed.



(** X3.  The root of a constructed store is a node of the index, and its
    record is the last record of [get_all] that is marked as root; the root
    is unset exactly when no record of the index is marked. *)
Theorem root_node_last_marked fuel items_ s out :
  TreeStore_init fuel items_ = Ret (s, out) →
  (λ a, item (node_at s a)) <$> root_node s =
    last (filter (λ r, dict_get r "parent" = root_mark) (get_all s)) ∧
  (∀ a, root_node s = Some a → a ∈ odict_values (nodes_map s)) ∧
  (root_node s = None ↔
   ∀ r, r ∈ get_all s → dict_get r "parent" ≠ root_mark) ∧
  (NoDup (ids items_) →
   (λ a, item (node_at s a)) <$> root_node s =
     last (filter (λ r, dict_get r "parent" = root_mark) items_)).
Proof.
  intros Hb%init_built.
  assert ((λ a, item (node_at s a)) <$> root_node s =
          last (filter (λ r, dict_get r "parent" = root_mark) (get_all s)))
    as Hroot.
  { rewrite (built_root items_) by done. unfold root_in. by rewrite view_values. }
  split_and!.
  - done.
  - intros a Ha. destruct (built_root_elem _ _ _ Hb Ha) as [k Hk].
    unfold odict_values. apply list_elem_of_fmap. by exists (k, a).
  - split.
    + intros Hnone r Hr Hp. rewrite Hnone in Hroot. simpl in Hroot.
      symmetry in Hroot. apply last_None in Hroot.
      assert (r ∈ filter (λ r, dict_get r "parent" = root_mark) (get_all s))
        as Hin by by apply list_elem_of_filter.
      rewrite Hroot in Hin. by apply elem_of_nil in Hin.
    + intros Hno. rewrite filter_none in Hroot by done.
      by destruct (root_node s).
  - intros Hnd. by rewrite Hroot, (built_get_all_distinct items_).
Qed.

Lemma root_node_last_marked_witness :
  TreeStore_init 1 sentinel_items = Ret (sentinel_store, ["a"; EmptyString]) ∧
  (λ a, item (node_at sentinel_store a)) <$> root_node sentinel_store =
    Some {[ "id" := VStr "a"; "parent" := VStr "root" ]}.
Proof.
  assert (TreeStore_init 1 sentinel_items
          = Ret (sentinel_store, ["a"; EmptyString])) as Hinit
    by (vm_compute; reflexivity).
  split; [exact Hinit|].
  destruct (root_node_last_marked 1 sentinel_items sentinel_store _ Hinit)
    as (Hroot & _).
  rewrite Hroot. vm_compute. reflexivity.
Defined.

Lemma odict_values_NoDup {V : Type} (d : list (value * V)) :
  NoDup (odict_keys d) →
  (∀ k k' v, (k, v) ∈ d → (k', v) ∈ d → k = k') →
  NoDup (odict_values d).
Proof.
  unfold odict_keys, odict_values.
  induction d as [|[k v] d IH]; csimpl; intros Hnd Hinj; [apply NoDup_nil_2|].
  apply NoDup_cons in Hnd as [Hk Hnd]. apply NoDup_cons. split.
  - intros ([k' v'] & Hv & Hin)%list_elem_of_fmap. simpl in Hv. subst v'.
    apply Hk. apply list_elem_of_fmap. exists (k', v). split; [|done]. simpl.
    apply (Hinj k k' v); apply elem_of_cons; [by left | by right].
  - apply IH; [done|]. intros k1 k2 v' H1 H2.
    apply (Hinj k1 k2 v'); apply elem_of_cons; by right.
Qed.

Lemma store_ok_values_NoDup s : store_ok s → NoDup (odict_values (nodes_map s)).
Proof.
  intros Hok. apply odict_values_NoDup; [apply Hok|].
  intros k k' a. by apply store_ok_addr_key.
Qed.

(** X4.  The children lists of a constructed store: a node is listed at
    most once, and under one node only, the node that the index holds for
    the parent its record names; nodes marked as root are listed nowhere,
    and every other node of the index whose parent is in the index is
    listed. *)
Theorem children_single_parent fuel items_ s out :
  TreeStore_init fuel items_ = Ret (s, out) →
  (∀ a, NoDup (children (node_at s a))) ∧
  (∀ a b c, c ∈ children (node_at s a) → c ∈ children (node_at s b) → a = b) ∧
  (∀ a c, c ∈ children (node_at s a) ↔
     c ∈ odict_values (nodes_map s) ∧
     dict_get (item (node_at s c)) "parent" ≠ root_mark ∧
     odict_get (dict_get (item (node_at s c)) "parent") (nodes_map s) = Some a) ∧
  (∀ a c, c ∈ children (node_at s a) → root_node s ≠ Some c).
Proof.
  intros Hb%init_built.
  pose proof (built_spec _ _ Hb) as (_ & Hok & _ & _ & _ & Hch & Hroot).
  assert (∀ a c, c ∈ children (node_at s a) ↔
            c ∈ odict_values (nodes_map s) ∧
            dict_get (item (node_at s c)) "parent" ≠ root_mark ∧
            odict_get (dict_get (item (node_at s c)) "parent") (nodes_map s)
              = Some a) as Hiff.
  { intros a c. rewrite Hch, list_elem_of_filter.
    unfold child_of, parent_of. tauto. }
  split_and!.
  - intros a. rewrite Hch. by apply NoDup_filter, store_ok_values_NoDup.
  - intros a b c (_ & _ & Ha)%Hiff (_ & _ & Hb')%Hiff. congruence.
  - done.
  - intros a c (_ & Hne & _)%Hiff Hc. rewrite Hroot in Hc.
    apply last_Some_elem_of, list_elem_of_filter in Hc as [Hr _]. done.
Qed.

Lemma children_single_parent_witness :
  TreeStore_init 4 items = Ret (ts, ts_out) ∧
  children (node_at ts 1) = [3; 4; 5] ∧
  ∀ b, 3 ∈ children (node_at ts b) → 1 = b.
Proof.
  assert (TreeStore_init 4 items = Ret (ts, ts_out)) as Hinit
    by (vm_compute; reflexivity).
  destruct (children_single_parent 4 items ts ts_out Hinit) as (_ & Hone & _).
  split_and!; [exact Hinit | vm_compute; reflexivity |].
  intros b Hb. apply (Hone 1 b 3); [by_compute | exact Hb].
Defined.

(** X5.  [get_all] is [get_item] over the distinct ids of the input in the
    order of their first occurrence; it holds no more records than the
    input, and only records of the input. *)
Theorem get_all_get_item fuel items_ s out :
  TreeStore_init fuel items_ = Ret (s, out) →
  get_all s = get_item s <$> first_seen (ids items_) ∧
  length (get_all s) ≤ length items_ ∧
  ∀ r, r ∈ get_all s → r ∈ items_.
Proof.
  intros Hb%init_built.
  pose proof (built_spec _ _ Hb) as (_ & Hok & Hview & _).
  destruct (store_ok_view _ Hok) as [Hnd _].
  split_and!.
  - rewrite <-(built_keys _ _ Hb), <-view_keys, get_all_view.
    unfold odict_values, odict_keys. rewrite <-list_fmap_compose.
    apply list_fmap_ext. intros i [k r] Hin%list_elem_of_lookup_2. simpl.
    rewrite get_item_view. by rewrite (odict_get_elem_NoDup k r).
  - rewrite get_all_view, Hview. unfold odict_values. rewrite length_fmap.
    apply index_of_length.
  - intros r Hr. rewrite get_all_view, Hview in Hr.
    apply list_elem_of_fmap in Hr as ([k r'] & -> & Hin). simpl.
    unfold index_of in Hin. apply index_elem_gen in Hin as [Hin|[? _]]; [|done].
    by apply elem_of_nil in Hin.
Qed.

Lemma get_all_get_item_witness :
  TreeStore_init 2 dup_items = Ret (dup_store, ["1"; "    2"; EmptyString]) ∧
  get_all dup_store = [rec3 1 root_mark (VStr "new"); rec2 2 (VInt 1)].
Proof.
  assert (TreeStore_init 2 dup_items = Ret (dup_store, ["1"; "    2"; EmptyString]))
    as Hinit by (vm_compute; reflexivity).
  split; [exact Hinit|].
  destruct (get_all_get_item 2 dup_items dup_store _ Hinit) as (Hall & _).
  rewrite Hall. vm_compute. reflexivity.
Defined.

(** X6.  [get_children] of an id of the index is [get_all] filtered by the
    parent that [build_tree] reads (a missing [parent] field reads as
    [None]), except that records marked as root are nobody's children; this
    also holds when ids repeat in the input.  A returned record is in the
    index under its own id. *)
Theorem get_children_get_all fuel items_ s out :
  TreeStore_init fuel items_ = Ret (s, out) →
  (∀ id_,
     get_children s id_ =
       if decide (id_ ∈ odict_keys (nodes_map s))
       then filter (λ r, dict_get r "parent" ≠ root_mark ∧
                         dict_get r "parent" = id_) (get_all s)
       else []) ∧
  (∀ id_ r, r ∈ get_children s id_ →
     ∃ k, r !! "id" = Some k ∧ get_item s k = r).
Proof.
  intros Hb%init_built.
  pose proof (built_spec _ _ Hb) as (_ & Hok & _).
  destruct (store_ok_view _ Hok) as [Hnd Hid].
  assert (∀ id_,
     get_children s id_ =
       if decide (id_ ∈ odict_keys (nodes_map s))
       then filter (λ r, dict_get r "parent" ≠ root_mark ∧
                         dict_get r "parent" = id_) (get_all s)
       else []) as Hfilter.
  { intros id_. rewrite (get_children_view items_) by done.
    rewrite <-view_keys.
    destruct (odict_get id_ (view s)) as [r|] eqn:Hget.
    - rewrite decide_True by (apply odict_get_is_Some; eauto).
      unfold children_in. by rewrite view_values.
    - rewrite decide_False; [done|]. by apply odict_get_None. }
  split; [done|].
  intros id_ r Hr. rewrite Hfilter in Hr. case_decide; [|by apply elem_of_nil in Hr].
  apply list_elem_of_filter in Hr as [_ Hr]. rewrite get_all_view in Hr.
  apply list_elem_of_fmap in Hr as ([k r'] & -> & Hin). simpl.
  exists k. split; [by apply Hid|].
  rewrite get_item_view. by rewrite (odict_get_elem_NoDup k r').
Qed.

Lemma get_children_get_all_witness :
  TreeStore_init 2 dup_items = Ret (dup_store, ["1"; "    2"; EmptyString]) ∧
  get_children dup_store (VInt 1) = [rec2 2 (VInt 1)].
Proof.
  assert (TreeStore_init 2 dup_items = Ret (dup_store, ["1"; "    2"; EmptyString]))
    as Hinit by (vm_compute; reflexivity).
  split; [exact Hinit|].
  destruct (get_children_get_all 2 dup_items dup_store _ Hinit) as (Hch & _).
  rewrite Hch. vm_compute. reflexivity.
Defined.

(** X7.  A record without [parent] field is a child of the node whose id
    is [None], when the index has one, and of no other node. *)
Theorem missing_parent_child_of_none fuel items_ s out :
  TreeStore_init fuel items_ = Ret (s, out) →
  ∀ r id_, r ∈ get_all s → r !! "parent" = None →
    r ∈ get_children s id_ ↔ id_ = VNone ∧ VNone ∈ odict_keys (nodes_map s).
Proof.
  intros Hb%init_built r id_ Hr Hp.
  pose proof (built_spec _ _ Hb) as (_ & Hok & _).
  assert (dict_get r "parent" = VNone) as Hget
    by (unfold dict_get; by rewrite Hp).
  rewrite (get_children_view items_) by done.
  destruct (odict_get id_ (view s)) as [r0|] eqn:Hid.
  - assert (id_ ∈ odict_keys (nodes_map s)) as Hin.
    { rewrite <-view_keys. apply odict_get_is_Some. eauto. }
    unfold children_in. rewrite view_values, list_elem_of_filter, Hget. split.
    + intros [[_ <-] _]. done.
    + intros [-> _]. done.
  - apply odict_get_None in Hid. rewrite view_keys in Hid. split.
    + intros H. by apply elem_of_nil in H.
    + intros [-> ?]. done.
Qed.

Lemma missing_parent_child_of_none_witness :
  TreeStore_init 2 none_id_items
    = Ret (none_id_store, ["None"; "    2"; EmptyString]) ∧
  {[ "id" := VInt 2 ]} ∈ get_children none_id_store VNone.
Proof.
  assert (TreeStore_init 2 none_id_items
          = Ret (none_id_store, ["None"; "    2"; EmptyString])) as Hinit
    by (vm_compute; reflexivity).
  split; [exact Hinit|].
  apply (missing_parent_child_of_none 2 none_id_items none_id_store _ Hinit).
  - by_compute.
  - vm_compute. reflexivity.
  - split; [reflexivity | by_compute].
Defined.

(** ** What [get_all_parents] returns *)

Lemma parents_view_acc d fuel : ∀ current parents,
  parents_view fuel d current parents =
    let! l := parents_view fuel d current [] in Ret (parents ++ l).
Proof.
  induction fuel as [|fuel IH]; intros [r|] parents; simpl;
    try by rewrite ?app_nil_r.
  destruct (r !! "parent") as [p|]; [|done].
  rewrite (IH _ (parents ++ [r])), (IH _ [r]).
  destruct (parents_view fuel d (odict_get p d) []); simpl; [|done..].
  by rewrite <-app_assoc.
Qed.

Lemma parents_view_step d fuel r l :
  parents_view fuel d (Some r) [] = Ret l →
  ∃ fuel' p c, fuel = S fuel' ∧ r !! "parent" = Some p ∧
    parents_view fuel' d (odict_get p d) [] = Ret c ∧ l = r :: c.
Proof.
  destruct fuel as [|fuel]; [done|]. simpl.
  destruct (r !! "parent") as [p|]; [|done].
  rewrite parents_view_acc.
  destruct (parents_view fuel d (odict_get p d) []) as [c| |] eqn:Hc; [|done..].
  intros [= <-]. by exists fuel, p, c.
Qed.

Lemma parents_view_result_unique d fuel : ∀ fuel' current l l',
  parents_view fuel d current [] = Ret l →
  parents_view fuel' d current [] = Ret l' → l = l'.
Proof.
  induction fuel as [|fuel IH]; intros fuel' [r|] l l' Hl Hl'.
  - done.
  - rewrite parents_view_None in Hl, Hl'. congruence.
  - apply parents_view_step in Hl as (f1 & p & c & [= <-] & Hp & Hc & ->).
    apply parents_view_step in Hl' as (f2 & p' & c' & -> & Hp' & Hc' & ->).
    assert (p' = p) as -> by congruence. f_equal.
    by apply (IH f2 (odict_get p d) c c').
  - rewrite parents_view_None in Hl, Hl'. congruence.
Qed.

Lemma parents_view_suffix d fuel : ∀ current l i x,
  parents_view fuel d current [] = Ret l → l !! i = Some x →
  ∃ fuel', parents_view fuel' d (Some x) [] = Ret (drop i l).
Proof.
  induction fuel as [|fuel IH]; intros [r|] l i x Hl Hx.
  - done.
  - rewrite parents_view_None in Hl. injection Hl as <-. done.
  - pose proof Hl as (f1 & p & c & [= <-] & Hp & Hc & ->)%parents_view_step.
    destruct i as [|i].
    + injection Hx as <-. by exists (S fuel).
    + apply (IH (odict_get p d) c i x Hc Hx).
  - rewrite parents_view_None in Hl. injection Hl as <-. done.
Qed.

Lemma parents_view_NoDup d fuel : ∀ current l,
  parents_view fuel d current [] = Ret l → NoDup l.
Proof.
  induction fuel as [|fuel IH]; intros [r|] l Hl.
  - done.
  - rewrite parents_view_None in Hl. injection Hl as <-. apply NoDup_nil_2.
  - pose proof Hl as (f1 & p & c & [= <-] & Hp & Hc & ->)%parents_view_step.
    apply NoDup_cons. split; [|by apply (IH (odict_get p d) c)].
    intros [i Hi]%list_elem_of_lookup_1.
    destruct (parents_view_suffix d fuel (odict_get p d) c i r Hc Hi)
      as [fuel' Hsuf].
    pose proof (parents_view_result_unique d _ _ _ _ _ Hl Hsuf) as Heq.
    apply (f_equal length) in Heq. rewrite length_drop in Heq. simpl in Heq. lia.
  - rewrite parents_view_None in Hl. injection Hl as <-. apply NoDup_nil_2.
Qed.

Lemma parents_view_links d fuel : ∀ current l,
  parents_view fuel d current [] = Ret l →
  head l = current ∧
  (∀ i x y, l !! i = Some x → l !! S i = Some y →
     ∃ p, x !! "parent" = Some p ∧ odict_get p d = Some y) ∧
  (∀ top, last l = Some top →
     ∃ p, top !! "parent" = Some p ∧ odict_get p d = None).
Proof.
  induction fuel as [|fuel IH]; intros [r|] l Hl.
  - done.
  - rewrite parents_view_None in Hl. injection Hl as <-. by split_and!.
  - pose proof Hl as (f1 & p & c & [= <-] & Hp & Hc & ->)%parents_view_step.
    destruct (IH (odict_get p d) c Hc) as (Hhead & Hlink & Hlast).
    split_and!; [done| |].
    + intros [|i] x y Hx Hy.
      * injection Hx as <-. exists p. split; [done|].
        by rewrite <-Hhead, head_lookup.
      * by apply (Hlink i).
    + intros top Htop. rewrite last_cons in Htop.
      destruct (last c) as [t|] eqn:Hc'.
      * injection Htop as <-. by apply Hlast.
      * injection Htop as <-. exists p. split; [done|].
        apply last_None in Hc'. subst c. simpl in Hhead. done.
  - rewrite parents_view_None in Hl. injection Hl as <-. by split_and!.
Qed.

Lemma get_item_lookup s k r : odict_get k (view s) = Some r → get_item s k = r.
Proof. intros H. by rewrite get_item_view, H. Qed.

(** X8.  Whenever [get_all_parents] returns, the list is the ancestor
    chain as the index resolves it: empty for an id that is not in the
    index; otherwise it starts with the record of the id, each next record
    is the record the index holds for the [parent] of the one before, and
    the [parent] of the last record is not an id of the index.  No record
    occurs twice in it, and all its records are records of [get_all]. *)
Theorem get_all_parents_result fuel0 items_ s out :
  TreeStore_init fuel0 items_ = Ret (s, out) →
  ∀ fuel id_ l, get_all_parents fuel s id_ = Ret l →
    (id_ ∉ odict_keys (nodes_map s) → l = []) ∧
    (id_ ∈ odict_keys (nodes_map s) → head l = Some (get_item s id_)) ∧
    (∀ i x y, l !! i = Some x → l !! S i = Some y →
       ∃ p, x !! "parent" = Some p ∧ p ∈ odict_keys (nodes_map s) ∧
            y = get_item s p) ∧
    (∀ top, last l = Some top →
       ∃ p, top !! "parent" = Some p ∧ p ∉ odict_keys (nodes_map s)) ∧
    NoDup l ∧
    (∀ x, x ∈ l → x ∈ get_all s).
Proof.
  intros _ fuel id_ l Hl. rewrite get_all_parents_view in Hl.
  destruct (parents_view_links _ _ _ _ Hl) as (Hhead & Hlink & Hlast).
  assert (∀ i x, l !! i = Some x → x ∈ get_all s) as Hin.
  { intros i. induction i as [|i IH]; intros x Hx.
    - rewrite <-head_lookup, Hhead in Hx. rewrite get_all_view.
      apply odict_get_Some_elem in Hx. unfold odict_values.
      apply list_elem_of_fmap. by exists (id_, x).
    - destruct (lookup_lt_is_Some_2 l i) as [x0 Hx0];
        [apply lookup_lt_Some in Hx; lia|].
      destruct (Hlink i x0 x Hx0 Hx) as (p & _ & Hp%odict_get_Some_elem).
      rewrite get_all_view. unfold odict_values.
      apply list_elem_of_fmap. by exists (p, x). }
  split_and!.
  - intros Hnot. rewrite <-view_keys in Hnot. apply odict_get_None in Hnot.
    rewrite Hnot in Hhead. by destruct l.
  - intros [r Hr]%odict_get_is_Some. rewrite view_get in Hhead.
    rewrite Hhead. unfold get_item. by rewrite Hr.
  - intros i x y Hx Hy. destruct (Hlink i x y Hx Hy) as (p & Hp & Hget).
    exists p. split_and!; [done| |by rewrite (get_item_lookup s p y)].
    rewrite <-view_keys. apply odict_get_is_Some. eauto.
  - intros top Htop. destruct (Hlast top Htop) as (p & Hp & Hget).
    exists p. split; [done|]. rewrite <-view_keys. by apply odict_get_None.
  - by apply (parents_view_NoDup _ _ _ _ Hl).
  - intros x [i Hi]%list_elem_of_lookup_1. by apply (Hin i).
Qed.

Lemma get_all_parents_result_witness :
  TreeStore_init 1 orphan_items = Ret (orphan_store, ["1"; EmptyString]) ∧
  get_all_parents 1 orphan_store (VInt 2) = Ret [rec2 2 (VInt 99)] ∧
  ∃ p, rec2 2 (VInt 99) !! "parent" = Some p ∧
       p ∉ odict_keys (nodes_map orphan_store).
Proof.
  assert (TreeStore_init 1 orphan_items = Ret (orphan_store, ["1"; EmptyString]))
    as Hinit by (vm_compute; reflexivity).
  assert (get_all_parents 1 orphan_store (VInt 2) = Ret [rec2 2 (VInt 99)])
    as Hres by (vm_compute; reflexivity).
  split_and!; [exact Hinit | exact Hres |].
  destruct (get_all_parents_result 1 orphan_items orphan_store _ Hinit
              1 (VInt 2) _ Hres) as (_ & _ & _ & Hlast & _).
  apply Hlast. reflexivity.
Defined.

(** X9.  Children and ancestors are inverse to each other: in a list that
    [get_all_parents] returns, every record that is not marked as root is
    among the [get_children] of the id of the record that follows it; and
    the walk from the id of a record that [get_children] returns for an
    id starts with that record, followed by the record of that id. *)
Theorem children_parents_inverse fuel0 items_ s out :
  TreeStore_init fuel0 items_ = Ret (s, out) →
  (∀ fuel id_ l i x y,
     get_all_parents fuel s id_ = Ret l →
     l !! i = Some x → l !! S i = Some y →
     dict_get x "parent" ≠ root_mark →
     x ∈ get_children s (dict_get y "id")) ∧
  (∀ id_ r, r ∈ get_children s id_ →
     ∃ k, r !! "id" = Some k ∧
       ∀ fuel l, get_all_parents fuel s k = Ret l →
         l !! 0 = Some r ∧ l !! 1 = Some (get_item s id_)).
Proof.
  intros Hb%init_built.
  pose proof (built_spec _ _ Hb) as (_ & Hok & _).
  destruct (store_ok_view _ Hok) as [Hnd Hid]. split.
  - intros fuel id_ l i x y Hl Hx Hy Hne.
    rewrite get_all_parents_view in Hl.
    destruct (parents_view_links _ _ _ _ Hl) as (Hhead & Hlink & _).
    destruct (Hlink i x y Hx Hy) as (p & Hp & Hget).
    assert (dict_get x "parent" = p) as Hxp by (unfold dict_get; by rewrite Hp).
    assert (dict_get y "id" = p) as ->.
    { apply odict_get_Some_elem, Hid in Hget. unfold dict_get. by rewrite Hget. }
    rewrite (get_children_view items_), Hget by done.
    unfold children_in. apply list_elem_of_filter. split; [by split|].
    destruct i as [|i].
    + rewrite <-head_lookup, Hhead in Hx. apply odict_get_Some_elem in Hx.
      unfold odict_values. apply list_elem_of_fmap. by exists (id_, x).
    + destruct (lookup_lt_is_Some_2 l i) as [x0 Hx0];
        [apply lookup_lt_Some in Hx; lia|].
      destruct (Hlink i x0 x Hx0 Hx) as (p0 & _ & Hp0%odict_get_Some_elem).
      unfold odict_values. apply list_elem_of_fmap. by exists (p0, x).
  - intros id_ r Hr. rewrite (get_children_view items_) in Hr by done.
    destruct (odict_get id_ (view s)) as [r0|] eqn:Hget;
      [|by apply elem_of_nil in Hr].
    apply list_elem_of_filter in Hr as [[Hne Hp] Hr].
    apply list_elem_of_fmap in Hr as ([k r'] & -> & Hin). simpl in *.
    exists k. split; [by apply Hid|]. intros fuel l Hl.
    rewrite get_all_parents_view in Hl.
    rewrite (odict_get_elem_NoDup k r') in Hl by done.
    apply parents_view_step in Hl as (f1 & p & c & -> & Hp' & Hc & ->).
    split; [done|]. simpl.
    assert (p = id_) as -> by (unfold dict_get in Hp; by rewrite Hp' in Hp).
    rewrite Hget in Hc.
    destruct (parents_view_links _ _ _ _ Hc) as (Hhead & _).
    by rewrite <-head_lookup, Hhead, (get_item_lookup s id_ r0).
Qed.

Lemma children_parents_inverse_witness :
  TreeStore_init 4 items = Ret (ts, ts_out) ∧
  rec3 4 (VInt 2) (VStr "test")
    ∈ get_children ts (dict_get (rec3 2 (VInt 1) (VStr "test")) "id").
Proof.
  assert (TreeStore_init 4 items = Ret (ts, ts_out)) as Hinit
    by (vm_compute; reflexivity).
  split; [exact Hinit|].
  destruct (children_parents_inverse 4 items ts ts_out Hinit) as [Hup _].
  apply (Hup 4 (VInt 7)
           [rec3 7 (VInt 4) VNone; rec3 4 (VInt 2) (VStr "test");
            rec3 2 (VInt 1) (VStr "test"); rec2 1 root_mark] 1);
    [vm_compute; reflexivity | reflexivity | reflexivity | by_compute].
Defined.

(** ** What [print_tree] prints *)

Lemma foldl_print_fail (f : record → outcome (list string)) (l : list record)
    (m : outcome (list string)) :
  (∀ o, m ≠ Ret o) →
  foldl (λ acc c, let! out := acc in let! out' := f c in Ret (out ++ out')) m l = m.
Proof.
  intros Hm. induction l as [|c l IH]; simpl; [done|].
  destruct m as [o| |]; [by destruct (Hm o) | done | done].
Qed.

Lemma foldl_print_inv (f : record → outcome (list string)) (l : list record) :
  ∀ out0 out,
    foldl (λ acc c, let! out := acc in let! out' := f c in Ret (out ++ out'))
          (Ret out0) l = Ret out →
    ∃ outs, Forall2 (λ c o, f c = Ret o) l outs ∧ out = out0 ++ concat outs.
Proof.
  induction l as [|c l IH]; intros out0 out Hfold; simpl in Hfold.
  - injection Hfold as <-. exists []. split; [constructor | by rewrite app_nil_r].
  - destruct (f c) as [o| |] eqn:Hc; simpl in Hfold.
    + destruct (IH _ _ Hfold) as (outs & Hall & ->).
      exists (o :: outs). split; [by constructor|]. simpl. by rewrite app_assoc.
    + by rewrite foldl_print_fail in Hfold.
    + by rewrite foldl_print_fail in Hfold.
Qed.

Lemma keyed_values_NoDup d : keyed_by_id d → NoDup (odict_values d).
Proof.
  intros [Hnd Hid]. apply odict_values_NoDup; [done|].
  intros k k' r Hk Hk'. by rewrite <-(Hid k r Hk), <-(Hid k' r Hk').
Qed.

Lemma children_in_values d k x : x ∈ children_in d k → x ∈ odict_values d.
Proof. by intros [_ ?]%list_elem_of_filter. Qed.

Lemma below_in_values d top x k :
  top ∈ odict_values d → below_in d top x k → x ∈ odict_values d.
Proof.
  intros Htop Hx. destruct Hx as [|p x k _ Hx]; [done|].
  by apply children_in_values in Hx.
Qed.

Lemma below_in_prepend d r c x k :
  c ∈ children_in d (dict_get r "id") → below_in d c x k → below_in d r x (S k).
Proof.
  intros Hc Hx. induction Hx as [|p x k Hp IH Hx].
  - apply below_in_child with r; [constructor | done].
  - by apply below_in_child with p.
Qed.

Lemma below_in_inv d r x k :
  below_in d r x k →
  (x = r ∧ k = 0) ∨
  ∃ c k', k = S k' ∧ c ∈ children_in d (dict_get r "id") ∧ below_in d c x k'.
Proof.
  induction 1 as [|p x k Hp IH Hx]; [by left|]. right.
  destruct IH as [[-> ->]|(c & k' & -> & Hc & Hcp)].
  - exists x, 0. split_and!; [done | done | constructor].
  - exists c, (S k'). split_and!; [done | done |].
    by apply below_in_child with p.
Qed.

Lemma below_in_depth d r x n k :
  keyed_by_id d → depth_view d r n → below_in d r x k → depth_view d x (n + k).
Proof.
  intros Hd Hr Hx. induction Hx as [|p x k Hp IH Hx].
  - by rewrite Nat.add_0_r.
  - rewrite Nat.add_succ_r. by apply (depth_view_children d p).
Qed.

Lemma children_in_parent d p1 p2 x :
  keyed_by_id d → p1 ∈ odict_values d → p2 ∈ odict_values d →
  x ∈ children_in d (dict_get p1 "id") → x ∈ children_in d (dict_get p2 "id") →
  p1 = p2.
Proof.
  intros Hd H1 H2 [[_ Hx1] _]%list_elem_of_filter [[_ Hx2] _]%list_elem_of_filter.
  pose proof (keyed_lookup d p1 Hd H1) as L1.
  pose proof (keyed_lookup d p2 Hd H2) as L2.
  rewrite <-Hx1 in L1. rewrite <-Hx2 in L2. congruence.
Qed.

Lemma below_in_unique d c1 c2 x k :
  keyed_by_id d → c1 ∈ odict_values d → c2 ∈ odict_values d →
  below_in d c1 x k → below_in d c2 x k → c1 = c2.
Proof.
  intros Hd H1 H2 Hb1. revert c2 H2.
  induction Hb1 as [|p x k Hp IH Hx]; intros c2 H2 Hb2.
  - by inversion Hb2.
  - inversion Hb2 as [|p' ? ? Hp' Hx']; subst.
    assert (p = p') as <-.
    { apply (children_in_parent d p p' x); try done.
      - by apply (below_in_values d c1 p k).
      - by apply (below_in_values d c2 p' k). }
    by apply IH.
Qed.

Lemma line_of_shift indent x k :
  line_of indent (x, S k) = line_of (indent + 4) (x, k).
Proof. unfold line_of. simpl. do 2 f_equal. lia. Qed.

(** The lines printed for the children of [r], given what the recursive
    calls print for each child. *)
Lemma print_children_nodes d fuel r n indent :
  keyed_by_id d → depth_view d r n →
  (∀ c o, c ∈ children_in d (dict_get r "id") →
     print_view fuel d c (indent + 4) = Ret o →
     ∃ rest, o = line_of (indent + 4) <$> ((c, 0) :: rest) ∧
       NoDup ((c, 0) :: rest).*1 ∧
       ∀ x k, (x, k) ∈ (c, 0) :: rest ↔ below_in d c x k) →
  ∀ l outs,
    Forall2 (λ c o, print_view fuel d c (indent + 4) = Ret o) l outs →
    NoDup l → (∀ c, c ∈ l → c ∈ children_in d (dict_get r "id")) →
    ∃ rest, concat outs = line_of indent <$> rest ∧
      NoDup rest.*1 ∧
      ∀ x k, (x, k) ∈ rest ↔ ∃ c k', c ∈ l ∧ k = S k' ∧ below_in d c x k'.
Proof.
  intros Hd Hr IHf l outs Hall.
  induction Hall as [|c o l outs Hc Hall IH]; intros Hnd Hl.
  - exists []. split_and!; [done | constructor |].
    intros x k. split; [by intros ?%elem_of_nil|].
    by intros (c & k' & ?%elem_of_nil & _).
  - apply NoDup_cons in Hnd as [Hcl Hnd].
    assert (c ∈ children_in d (dict_get r "id")) as Hcr by (apply Hl; left).
    destruct (IHf c o Hcr Hc) as (rc & -> & Hndc & Hiffc).
    destruct IH as (rl & Hout & Hndl & Hiffl);
      [done | by intros; apply Hl; right |].
    assert (∀ nc : list (record * nat), (prod_map id S <$> nc).*1 = nc.*1) as Hfst.
    { intros nc. rewrite <-list_fmap_compose. apply list_fmap_ext.
      by intros i [x k] _. }
    assert (∀ (nc : list (record * nat)) x k,
      (x, k) ∈ prod_map id S <$> nc ↔ ∃ k', k = S k' ∧ (x, k') ∈ nc) as Hshift.
    { intros nc x k. rewrite list_elem_of_fmap. split.
      - intros ([x' k'] & [= -> ->] & Hin). by exists k'.
      - intros (k' & -> & Hin). by exists (x, k'). }
    exists ((prod_map id S <$> ((c, 0) :: rc)) ++ rl). split_and!.
    + change (concat (?o :: outs)) with (o ++ concat outs).
      rewrite Hout, fmap_app. f_equal.
      rewrite <-list_fmap_compose. apply list_fmap_ext.
      intros i [x k] _. simpl. symmetry. apply line_of_shift.
    + rewrite fmap_app, Hfst. apply NoDup_app. split_and!; [done | | done].
      intros x ([x1 k1] & -> & Hx1)%list_elem_of_fmap
               ([x2 k2] & Hx & Hx2)%list_elem_of_fmap.
      simpl in Hx. subst x2.
      apply Hiffc in Hx1.
      apply Hiffl in Hx2 as (c2 & k' & Hc2 & -> & Hx2).
      assert (c2 ∈ children_in d (dict_get r "id")) as Hc2r by by apply Hl; right.
      pose proof (depth_view_children d r n c Hd Hr Hcr) as Hdc.
      pose proof (depth_view_children d r n c2 Hd Hr Hc2r) as Hdc2.
      pose proof (below_in_depth d c x1 _ _ Hd Hdc Hx1) as D1.
      pose proof (below_in_depth d c2 x1 _ _ Hd Hdc2 Hx2) as D2.
      assert (k1 = k') as -> by (pose proof (depth_view_det _ _ _ _ D1 D2); lia).
      apply Hcl.
      rewrite (below_in_unique d c c2 x1 k' Hd); try done;
        by eapply children_in_values.
    + intros x k. rewrite elem_of_app, Hshift, Hiffl. split.
      * intros [(k' & -> & Hin)|(c2 & k' & Hc2 & -> & Hb)].
        -- exists c, k'. split_and!; [left | done | by apply Hiffc].
        -- exists c2, k'. split_and!; [by right | done | done].
      * intros (c2 & k' & [->|Hc2]%elem_of_cons & -> & Hb).
        -- left. exists k'. split; [done | by apply Hiffc].
        -- right. by exists c2, k'.
Qed.

(** What a call of [print_tree] on a record at some depth under the root
    returns: the line of the record, then one line for each record below
    it, each once, indented by four spaces per level. *)
Lemma print_view_nodes d :
  keyed_by_id d → d ≠ [] →
  ∀ fuel r n indent out,
    depth_view d r n → print_view fuel d r indent = Ret out →
    ∃ rest, out = line_of indent <$> ((r, 0) :: rest) ∧
      NoDup ((r, 0) :: rest).*1 ∧
      ∀ x k, (x, k) ∈ (r, 0) :: rest ↔ below_in d r x k.
Proof.
  intros Hd Hne fuel. induction fuel as [|fuel IH]; intros r n indent out Hr Hp;
    [done|].
  cbn [print_view] in Hp. rewrite decide_False in Hp by done.
  apply foldl_print_inv in Hp as (outs & Hall & ->).
  destruct (print_children_nodes d fuel r n indent Hd Hr) with
    (l := children_in d (dict_get r "id")) (outs := outs)
    as (rest & Hout & Hnd & Hiff); try done.
  { intros c o Hc Ho. apply (IH c (S n) (indent + 4) o); [|done].
    by apply (depth_view_children d r n). }
  { apply NoDup_filter, keyed_values_NoDup, Hd. }
  exists rest. split_and!.
  - rewrite Hout. csimpl. f_equal. unfold line_of. simpl.
    by rewrite Nat.add_0_r.
  - csimpl. apply NoDup_cons. split; [|done].
    intros ([x k] & Hx & Hin)%list_elem_of_fmap. simpl in Hx. subst x.
    apply Hiff in Hin as (c & k' & Hc & -> & Hb).
    pose proof (depth_view_children d r n c Hd Hr Hc) as Hdc.
    pose proof (below_in_depth d c r _ _ Hd Hdc Hb) as Hdr.
    pose proof (depth_view_det _ _ _ _ Hr Hdr). lia.
  - intros x k. rewrite elem_of_cons, Hiff. split.
    + intros [[= -> ->]|(c & k' & Hc & -> & Hb)]; [constructor|].
      by apply below_in_prepend with c.
    + intros [[-> ->]|(c & k' & -> & Hc & Hb)]%below_in_inv; [by left|].
      right. by exists c, k'.
Qed.

(** The output of [print_tree] called without node on a non-empty index. *)
Lemma print_top_nodes d fuel out :
  keyed_by_id d → d ≠ [] → print_top fuel d = Ret out →
  ∃ r0 rest,
    root_in d = Some r0 ∧ depth_view d r0 0 ∧
    out = line_of 0 <$> ((r0, 0) :: rest) ∧
    NoDup ((r0, 0) :: rest).*1 ∧
    ∀ x k, (x, k) ∈ (r0, 0) :: rest ↔ below_in d r0 x k.
Proof.
  intros Hd Hne Hp. destruct fuel as [|fuel]; [done|].
  cbn [print_top] in Hp. rewrite decide_False in Hp by done.
  destruct (root_in d) as [r0|] eqn:Hr0; [|done].
  assert (depth_view d r0 0) as Hdepth.
  { apply last_Some_elem_of, list_elem_of_filter in Hr0 as [Hp0 Hr0].
    by constructor. }
  destruct (print_view_nodes d Hd Hne _ _ _ _ _ Hdepth Hp)
    as (rest & Hout & Hnd & Hiff).
  by exists r0, rest.
Qed.

Lemma built_keyed items_ s : built items_ s → keyed_by_id (view s).
Proof.
  intros Hb. destruct (built_spec _ _ Hb) as (Hid & _ & -> & _).
  by apply index_of_keyed.
Qed.

(** On a constructed store the two relations agree. *)
Lemma below_view items_ s top x k :
  built items_ s → top ∈ odict_values (view s) →
  below s top x k ↔ below_in (view s) top x k.
Proof.
  intros Hb Htop. pose proof (built_keyed _ _ Hb) as Hd.
  assert (∀ p, p ∈ odict_values (view s) →
    get_children s (dict_get p "id") = children_in (view s) (dict_get p "id"))
    as Hch.
  { intros p Hp. rewrite (get_children_view items_ s _ Hb).
    by rewrite (keyed_lookup _ _ Hd Hp). }
  split.
  - induction 1 as [|p x k Hp IH Hx]; [constructor|].
    apply below_in_child with p; [done|]. rewrite <-Hch; [done|].
    by apply (below_in_values _ top p k).
  - induction 1 as [|p x k Hp IH Hx]; [constructor|].
    apply below_child with p; [done|]. rewrite Hch; [done|].
    by apply (below_in_values _ top p k).
Qed.

Lemma index_of_values_distinct items_ :
  NoDup (ids items_) → odict_values (index_of items_) = items_.
Proof.
  intros Hnd. rewrite (index_of_distinct _ Hnd). unfold odict_values.
  rewrite <-list_fmap_compose. apply list_fmap_id.
Qed.

Lemma depth_in_view items_ r n :
  NoDup (ids items_) → depth_in items_ r n → depth_view (index_of items_) r n.
Proof.
  intros Hnd. induction 1 as [r Hr Hp|r p pid n Hr Hp Hpid Hpin Hpk _ IH].
  - constructor; [by rewrite index_of_values_distinct|].
    unfold dict_get. by rewrite Hp.
  - assert (dict_get r "parent" = pid) as Hget by (unfold dict_get; by rewrite Hp).
    apply depth_view_child with p; [by rewrite index_of_values_distinct | | | done].
    + by rewrite Hget.
    + rewrite Hget. by apply index_lookup.
Qed.

(** With a single record marked as root, a record at depth [k] is [k] levels
    below that record. *)
Lemma depth_view_below d r0 x k :
  keyed_by_id d →
  (∀ r, r ∈ odict_values d → dict_get r "parent" = root_mark → r = r0) →
  depth_view d x k → below_in d r0 x k.
Proof.
  intros Hd Huniq. induction 1 as [r Hr Hp|r p n Hr Hp Hlook _ IH].
  - rewrite (Huniq r Hr Hp). constructor.
  - apply below_in_child with p; [done|].
    apply list_elem_of_filter. split; [|done]. split; [done|].
    apply odict_get_Some_elem in Hlook. symmetry. by apply Hd.
Qed.

Lemma Forall2_choice {A B : Type} (P : A → B → Prop) (l : list A) :
  (∀ x, x ∈ l → ∃ y, P x y) → ∃ k, Forall2 P l k.
Proof.
  induction l as [|x l IH]; intros Hall; [by exists []|].
  destruct (Hall x) as [y Hy]; [left|].
  destruct IH as [k Hk]; [by intros; apply Hall; right|].
  exists (y :: k). by constructor.
Qed.

(** X10. When construction returns, what [print_tree] printed is: nothing
    but the empty line of [print()] when the input is empty; otherwise the
    line of the root record first, without indentation, then exactly one
    line for every record that is some levels below the root in the lists of
    [get_children], indented by four spaces per level, and the empty line
    last.  No record is printed twice, and records that are not below the
    root are not printed. *)
Theorem print_tree_lines fuel items_ s out :
  TreeStore_init fuel items_ = Ret (s, out) →
  match root_node s with
  | None => items_ = [] ∧ out = [EmptyString]
  | Some a =>
      let top := item (node_at s a) in
      ∃ rest,
        out = (line_of 0 <$> ((top, 0) :: rest)) ++ [EmptyString] ∧
        NoDup ((top, 0) :: rest).*1 ∧
        ∀ x k, (x, k) ∈ (top, 0) :: rest ↔ below s top x k
  end.
Proof.
  intros Hinit. apply init_iff in Hinit as [Hb (out' & Hp & ->)].
  rewrite (print_tree_top _ _ _ Hb) in Hp.
  pose proof (built_root _ _ Hb) as Hroot.
  pose proof (built_keyed _ _ Hb) as Hd.
  destruct (decide (view s = [])) as [He|Hne].
  - rewrite He in Hroot, Hp. destruct (root_node s); [done|].
    destruct fuel; [done|]. injection Hp as <-. split; [|done].
    destruct (built_spec _ _ Hb) as (_ & _ & Hv & _). rewrite He in Hv.
    by apply index_of_nil.
  - destruct (print_top_nodes _ _ _ Hd Hne Hp)
      as (r0 & rest & Hr0 & _ & -> & Hnd & Hiff).
    rewrite Hr0 in Hroot. destruct (root_node s) as [a|]; [|done].
    injection Hroot as ->. exists rest. split_and!; [done | done |].
    intros x k. rewrite Hiff. symmetry. apply (below_view items_); [done|].
    by apply last_Some_elem_of, list_elem_of_filter in Hr0 as [_ ?].
Qed.

Lemma print_tree_lines_witness :
  TreeStore_init 4 items = Ret (ts, ts_out) ∧
  ∃ a rest,
    root_node ts = Some a ∧
    ts_out = (line_of 0 <$> ((rec2 1 root_mark, 0) :: rest)) ++ [EmptyString] ∧
    ((rec3 7 (VInt 4) VNone, 3) ∈ rest ↔
     below ts (item (node_at ts a)) (rec3 7 (VInt 4) VNone) 3).
Proof.
  assert (TreeStore_init 4 items = Ret (ts, ts_out)) as Hinit
    by (vm_compute; reflexivity).
  split; [exact Hinit|].
  pose proof (print_tree_lines 4 items ts ts_out Hinit) as Hlines.
  assert (root_node ts = Some 0) as Hroot by (vm_compute; reflexivity).
  rewrite Hroot in Hlines. destruct Hlines as (rest & Hout & _ & Hiff).
  assert (item (node_at ts 0) = rec2 1 root_mark) as Hitem
    by (vm_compute; reflexivity).
  rewrite Hitem in Hout, Hiff.
  exists 0, rest. split_and!; [done | done |].
  rewrite Hitem, <-Hiff. rewrite elem_of_cons. split; [by right|].
  by intros [[=]|?].
Defined.

(** X11. For a well-formed rooted tree the printed output, apart from the
    final empty line, has exactly one line per input record: the id of the
    record after four spaces for each parent reference between the record
    and the root. *)
Theorem print_tree_well_formed fuel items_ s out :
  TreeStore_init fuel items_ = Ret (s, out) → well_formed_tree items_ →
  ∃ ds, Forall2 (depth_in items_) items_ ds ∧
        out ≡ₚ (line_of 0 <$> zip items_ ds) ++ [EmptyString].
Proof.
  intros Hinit (Hids & Hnd & _ & (root & Hroot & Hrp & Huniq) & Hdepth).
  apply init_iff in Hinit as [Hb (out' & Hp & ->)].
  rewrite (print_tree_top _ _ _ Hb) in Hp.
  destruct (built_spec _ _ Hb) as (_ & _ & Hv & _). rewrite Hv in Hp.
  pose proof (index_of_keyed _ Hids) as Hd.
  pose proof (index_of_values_distinct _ Hnd) as Hvals.
  assert (index_of items_ ≠ []) as Hne.
  { intros He%index_of_nil. subst. by apply elem_of_nil in Hroot. }
  destruct (print_top_nodes _ _ _ Hd Hne Hp)
    as (r0 & rest & Hr0 & Hd0 & -> & Hndn & Hiff).
  assert (∀ r, r ∈ odict_values (index_of items_) →
               dict_get r "parent" = root_mark → r = r0) as Huniq0.
  { assert (∀ r, r ∈ items_ → dict_get r "parent" = root_mark → r = root) as Hu.
    { intros r Hr Hpr. apply Huniq; [done|]. unfold dict_get in Hpr.
      destruct (r !! "parent") as [v|]; [by simpl in Hpr; subst | done]. }
    apply last_Some_elem_of, list_elem_of_filter in Hr0 as [Hp0 Hr0].
    rewrite Hvals in *. intros r Hr Hpr.
    by rewrite (Hu r Hr Hpr), (Hu r0 Hr0 Hp0). }
  destruct (Forall2_choice (depth_in items_) items_ Hdepth) as [ds Hds].
  exists ds. split; [done|].
  apply Permutation_app_tail, fmap_Permutation.
  assert (NoDup items_) as Hndi by (by apply NoDup_fmap_1 in Hnd).
  apply NoDup_Permutation.
  - by apply NoDup_fmap_1 in Hndn.
  - apply (NoDup_fmap_1 fst). rewrite fst_zip; [done|].
    by rewrite (Forall2_length _ _ _ Hds).
  - intros [x k]. rewrite Hiff. split.
    + intros Hbelow.
      pose proof (below_in_depth _ _ _ _ _ Hd Hd0 Hbelow) as Hdx. simpl in Hdx.
      assert (x ∈ items_) as Hx.
      { rewrite <-Hvals. apply (below_in_values _ r0 x k); [|done].
        by apply last_Some_elem_of, list_elem_of_filter in Hr0 as [_ ?]. }
      apply list_elem_of_lookup_1 in Hx as [i Hi].
      destruct (Forall2_lookup_l _ _ _ _ _ Hds Hi) as (k' & Hk' & Hdi).
      apply (depth_in_view _ _ _ Hnd) in Hdi.
      rewrite (depth_view_det _ _ _ _ Hdx Hdi).
      apply (list_elem_of_lookup_2 _ i). apply lookup_zip_with_Some.
      by exists x, k'.
    + intros [i Hi]%list_elem_of_lookup_1.
      apply lookup_zip_with_Some in Hi as (x' & k' & [= <- <-] & Hx & Hk).
      pose proof (Forall2_lookup_lr _ _ _ _ _ _ Hds Hx Hk) as Hdi.
      apply (depth_in_view _ _ _ Hnd) in Hdi.
      by apply depth_view_below.
Qed.

Lemma print_tree_well_formed_witness :
  TreeStore_init 4 items = Ret (ts, ts_out) ∧ well_formed_tree items ∧
  ∃ ds, Forall2 (depth_in items) items ds ∧
        ts_out ≡ₚ (line_of 0 <$> zip items ds) ++ [EmptyString].
Proof.
  assert (TreeStore_init 4 items = Ret (ts, ts_out)) as Hinit
    by (vm_compute; reflexivity).
  split_and!; [exact Hinit | exact items_well_formed |].
  exact (print_tree_well_formed 4 items ts ts_out Hinit items_well_formed).
Defined.

(** ** Calling [build_tree] a second time *)


